(** * DCA calculator: the accumulation loop of [calculate_dca]

    A shallow embedding of [src/calculator.py].  [calculate_dca] walks the rows
    of a price frame, buys [contribution / price] shares at every row and logs
    the running totals; [main] derives a final value, a net gain and a
    percentage from what it returns.

    Numbers.  Every number of the loop is an IEEE 754 binary64 value, and is
    modelled by Rocq's primitive [float], which computes, and whose operations
    are specified against [SpecFloat] by the axioms of [FloatAxioms].  What
    Python adds to IEEE arithmetic is kept: the class of a value decides what
    its division does.  A frame whose columns are all float64 hands out
    [numpy.float64] cells, and a quotient by a zero [numpy.float64] is an
    infinity or a NaN; a frame with a column of another kind has dtype
    [object] and hands out Python floats, and a quotient by a zero Python
    float raises [ZeroDivisionError].  The two amounts are the floats [main]
    passes or the ints the test passes; an int is converted when it meets a
    float, and the conversion raises [OverflowError] beyond the float range.

    Effects.  [calculate_dca] is modelled in an error monad: the lookup
    [row["Close"]] and the arithmetic on the value it yields can raise. *)

From Stdlib Require Import ZArith Uint63 Floats Lia.
From stdpp Require Import base option list gmap strings.

Local Open Scope string_scope.

(** ** Python layer: exceptions, numbers and the frame *)

Module Py.

(** The exceptions the modelled lines can raise: a missing column label in
    [row["Close"]], [iloc[-1]] on an empty column, a division by a [str], a
    division of Python floats by zero, an int too large for a float. *)
Inductive exn : Type :=
| KeyError (label : string)
| IndexError
| TypeError
| ZeroDivisionError
| OverflowError.

Inductive result (A : Type) : Type :=
| Ok (a : A)
| Raise (e : exn).
Arguments Ok {A} a.
Arguments Raise {A} e.

#[global] Instance result_ret : MRet result := @Ok.
#[global] Instance result_bind : MBind result := fun A B k c =>
  match c with
  | Ok a => k a
  | Raise e => Raise e
  end.

End Py.
Import Py.

(** An amount as a caller passes it: a Python [int] or a Python [float].  A
    float stands for itself where an amount is expected. *)
Inductive number : Type :=
| py_int (n : Z)
| py_float (x : float).
Coercion py_float : float >-> number.
Bind Scope float_scope with number.

(** The conversion the float operators apply to an int operand: the nearest
    binary64 value, ties to even, and [OverflowError] when that value is
    beyond the largest float. *)
Definition float_of_int (n : Z) : result float :=
  match binary_normalize prec emax n 0 false with
  | S754_infinity _ => Raise OverflowError
  | x => Ok (SF2Prim x)
  end.

Definition as_float (a : number) : result float :=
  match a with
  | py_int n => float_of_int n
  | py_float x => Ok x
  end.

(** [a + b] on amounts: exact on two ints, the float sum otherwise. *)
Definition add (a b : number) : result number :=
  match a, b with
  | py_int n, py_int m => Ok (py_int (n + m))
  | _, _ => x ← as_float a; y ← as_float b; Ok (py_float (x + y))
  end.

(** A value as [row[label]] yields it: a [numpy.float64], a Python [float] or
    a [str]. *)
Inductive cell : Type :=
| np_float64 (x : float)
| float_cell (x : float)
| str_cell (s : string).

(** [a / price].  The int operand is converted first; a [numpy.float64]
    divisor never raises, a Python float divisor equal to zero does, and a
    [str] has no division. *)
Definition truediv (a : number) (price : cell) : result float :=
  match price with
  | np_float64 p => x ← as_float a; Ok (x / p)%float
  | float_cell p =>
      x ← as_float a;
      if (p =? 0)%float then Raise ZeroDivisionError else Ok (x / p)%float
  | str_cell _ => Raise TypeError
  end.

(** [x * price] for a float [x]. *)
Definition mul (x : float) (price : cell) : result float :=
  match price with
  | np_float64 p | float_cell p => Ok (x * p)%float
  | str_cell _ => Raise TypeError
  end.

(** The binary64 value a float cell holds, which is what a float64 column
    built from it stores.  (No [str] gets as far as being stored: the
    division before it raises.) *)
Definition float64_of (v : cell) : float :=
  match v with
  | np_float64 x | float_cell x => x
  | str_cell _ => nan
  end.

(** An index label of the frame: a date, as its day number. *)
Definition Timestamp : Type := Z.
Bind Scope Z_scope with Timestamp.

(** One row as [iterrows] hands it out: a series from column label to
    value. *)
Definition Series : Type := gmap string cell.

(** A frame whose columns are all float64, as the sequence of its (index
    label, row) pairs in order.  This is the frame [main] passes (line 77
    keeps "Date" and "Close", line 96 makes "Date" the index) and the frame
    of the test. *)
Abbreviation Float64Row := (gmap string float).
Abbreviation Float64Frame := (list (Timestamp * Float64Row)).

(** A frame is either all float64, or has dtype [object] because some column
    is of another kind; its rows then hold Python objects.  A float64 frame
    stands for itself where a frame is expected. *)
Inductive DataFrame : Type :=
| float64 (rows : Float64Frame)
| object (rows : list (Timestamp * Series)).
#[warning="-uniform-inheritance"] Coercion float64 : list >-> DataFrame.

(** [frame.iterrows()]: every row comes out with the dtype of the whole
    frame, [numpy.float64] cells for a float64 frame and the Python objects
    themselves for an object frame. *)
Definition iterrows (df : DataFrame) : list (Timestamp * Series) :=
  match df with
  | float64 rows => map (fun r => (r.1, np_float64 <$> r.2)) rows
  | object rows => rows
  end.

(** [row[label]] *)
Definition getitem (row : Series) (label : string) : result cell :=
  match row !! label with
  | Some v => Ok v
  | None => Raise (KeyError label)
  end.

(** ** The DCA log *)

(** One dictionary appended to [dca_log], as the row of the float64 frame
    built from the log; the field names are the keys "Date", "Price",
    "Total Shares", "Total Investment", "Portfolio Value". *)
Record LedgerEntry : Type := mkEntry {
  Date : Timestamp;
  Price : float;
  Total_Shares : float;
  Total_Investment : float;
  Portfolio_Value : float
}.

(** The three locals the loop updates, as binary64 values. *)
Record locals : Type := mkLocals {
  total_invested : float;
  total_shares : float;
  dca_log : list LedgerEntry
}.

Definition initial_locals : locals :=
  {| total_invested := 0%float; total_shares := 0%float; dca_log := [] |}.

Section Accumulator.

Variables regular_contribution initial_investment : number.

(** Lines 32-34: [contribution = regular_contribution], and on the first pass
    ([i == 0]) [contribution += initial_investment]. *)
Definition contribution (i : nat) : result number :=
  let contribution := regular_contribution in
  if Nat.eqb i 0 then add contribution initial_investment
  else Ok contribution.

(** The body of the [for] loop, lines 31-45: read the price, add the quotient
    to the shares and the contribution to the invested total, append the
    dictionary of the five values. *)
Definition loop_body (i : nat) (date : Timestamp) (row : Series)
    (st : locals) : result locals :=
  price ← getitem row "Close";
  contribution ← contribution i;
  quotient ← truediv contribution price;
  let total_shares' := (total_shares st + quotient)%float in
  addend ← as_float contribution;
  let total_invested' := (total_invested st + addend)%float in
  value ← mul total_shares' price;
  Ok {| total_invested := total_invested';
        total_shares := total_shares';
        dca_log := dca_log st ++
          [ {| Date := date;
               Price := float64_of price;
               Total_Shares := total_shares';
               Total_Investment := total_invested';
               Portfolio_Value := value |} ] |}.

(** [for i, (date, row) in enumerate(...)], started at index [i]. *)
Fixpoint for_enumerate (i : nat) (rows : list (Timestamp * Series))
    (st : locals) : result locals :=
  match rows with
  | [] => Ok st
  | (date, row) :: rows' =>
      st' ← loop_body i date row st;
      for_enumerate (S i) rows' st'
  end.

End Accumulator.

(** [calculate_dca]: the three locals start at [0.0], [0.0] and [[]], the loop
    runs over the rows the frame hands out, and the log is returned with the
    two totals. *)
Definition calculate_dca (filtered_data : DataFrame)
    (regular_contribution initial_investment : number)
    : result (list LedgerEntry * float * float) :=
  st ← for_enumerate regular_contribution initial_investment
         0 (iterrows filtered_data) initial_locals;
  Ok (dca_log st, total_shares st, total_invested st).

(** ** The results block of [main] (lines 108-118) *)

(** [dca_df[label]]: a frame built from an empty list of dictionaries has no
    column at all. *)
Definition column {A} (dca_df : list LedgerEntry) (label : string)
    (field : LedgerEntry -> A) : result (list A) :=
  match dca_df with
  | [] => Raise (KeyError label)
  | _ => Ok (map field dca_df)
  end.

(** [values.iloc[-1]] *)
Definition iloc_last {A} (values : list A) : result A :=
  match last values with
  | Some x => Ok x
  | None => Raise IndexError
  end.

(** The three numbers the block writes after the invested total. *)
Record summary : Type := mkSummary {
  final_value : float;
  net_gain_loss : float;
  net_gain_loss_pct : float
}.

Definition results (dca_df : list LedgerEntry) (total_invested : float)
    : result summary :=
  contributions ← column dca_df "Total Investment" Total_Investment;
  portfolio_value ← column dca_df "Portfolio Value" Portfolio_Value;
  final_value ← iloc_last portfolio_value;
  let net_gain_loss := (final_value - total_invested)%float in
  Ok {| final_value := final_value;
        net_gain_loss := net_gain_loss;
        net_gain_loss_pct := (net_gain_loss / total_invested * 100)%float |}.

(** ** Float64 frames used in the examples *)

Definition close_only (p : float) : Float64Row := {[ "Close" := p ]}.

(** The float64 frame with the one column "Close", over these dates and
    closes. *)
Definition close_frame (rows : list (Timestamp * float)) : Float64Frame :=
  map (fun r => (r.1, close_only r.2)) rows.

(** The frame of [test_calculate_dca_basic]: closes 10, 20, 40 on three
    successive days. *)
Definition basic_prices (day : Timestamp) : Float64Frame :=
  [ (day, close_only 10); ((day + 1)%Z, close_only 20);
    ((day + 2)%Z, close_only 40) ].

(** Two frames with the same index and the same "Close" column; the second
    carries two more columns. *)
Definition lean_frame : Float64Frame :=
  [ (0%Z, close_only 10); (1%Z, close_only 20) ].
Definition wide_frame : Float64Frame :=
  [ (0%Z, {[ "Open" := 9.5%float; "Close" := 10%float;
             "Volume" := 1200%float ]});
    (1%Z, {[ "Open" := 10.5%float; "Close" := 20%float;
             "Volume" := 800%float ]}) ].

(** A single day at a close of 0, and one at a close of 10. *)
Definition zero_price : Float64Frame := [ (0%Z, close_only 0) ].
Definition one_day : Float64Frame := [ (0%Z, close_only 10) ].

(** Two days at an infinite close. *)
Definition infinite_prices : Float64Frame :=
  [ (0%Z, close_only infinity); (1%Z, close_only infinity) ].

(** A sound close, an infinite one, a sound one. *)
Definition pause_at_infinity : Float64Frame :=
  [ (0%Z, close_only 10); (1%Z, close_only infinity); (2%Z, close_only 20) ].

(** Ten days at a close of 10. *)
Definition ten_days : Float64Frame :=
  map (fun d => (Z.of_nat d, close_only 10)) (seq 0 10).

(** The float nearest to one tenth. *)
Definition tenth : float := 0x1.999999999999ap-4%float.

(** ** Input conditions, on a float64 frame *)

(** The "Close" cell of a row, when the frame has that column. *)
Definition close (r : Timestamp * Float64Row) : option float :=
  r.2 !! "Close".

(** Every row has a "Close" cell. *)
Definition has_close (df : Float64Frame) : bool :=
  forallb (fun r => bool_decide (is_Some (close r))) df.

Definition price_ok (r : Timestamp * Float64Row) : bool :=
  match close r with
  | Some p => (0 <? p)%float
  | None => false
  end.

(** The conditions the interface asks of a caller, as float comparisons:
    both amounts [>= 0], every price [> 0]. *)
Definition valid_input (df : Float64Frame) (rc ii : float) : bool :=
  (0 <=? rc)%float && (0 <=? ii)%float && forallb price_ok df.

Definition price_finite (r : Timestamp * Float64Row) : bool :=
  match close r with
  | Some p => is_finite p
  | None => false
  end.

(** Every price is a finite number. *)
Definition finite_prices (df : Float64Frame) : bool := forallb price_finite df.

(** Some row has a price [<= 0]. *)
Definition nonpositive_price (df : Float64Frame) : bool :=
  existsb (fun r => match close r with
                    | Some p => (p <=? 0)%float
                    | None => false
                    end) df.

(** [xs] is non-decreasing from each element to the next, with the float
    comparison [<=]. *)
Fixpoint non_decreasing (xs : list float) : bool :=
  match xs with
  | x :: (y :: _) as tl => (x <=? y)%float && non_decreasing tl
  | _ => true
  end.

(** The float of a whole number, and [float(n)] for an interval count [n]. *)
Definition float_of_Z (z : Z) : float := of_uint63 (Uint63.of_Z z).
Definition float_of_nat (n : nat) : float := float_of_Z (Z.of_nat n).

(** The closed form the conservation property is worded with:
    [rc * (i + 1) + (ii if i == 0 else 0)]. *)
Definition conservation_formula (rc ii : float) (i : nat) : float :=
  (rc * float_of_nat (i + 1) + (if Nat.eqb i 0 then ii else 0))%float.

(** The contribution of interval [i] when both amounts are floats. *)
Definition contribution_at (regular_contribution initial_investment : float)
    (i : nat) : float :=
  let contribution := regular_contribution in
  if Nat.eqb i 0 then (contribution + initial_investment)%float
  else contribution.

(** [xs] never steps down: no element is below the one before it. *)
Fixpoint never_lower (xs : list float) : bool :=
  match xs with
  | x :: (y :: _) as tl => negb (y <? x)%float && never_lower tl
  | _ => true
  end.

(** No infinite contribution meets an infinite price, from interval [i]
    on. *)
Fixpoint no_inf_over_inf (rc ii : float) (i : nat) (df : Float64Frame)
    : bool :=
  match df with
  | [] => true
  | r :: df' =>
      (price_finite r || is_finite (contribution_at rc ii i))
      && no_inf_over_inf rc ii (S i) df'
  end.

(** ** Frames of either kind *)

(** The "Close" value of a row as it is handed out, and the binary64 price it
    stands for when it is a float of either class. *)
Definition close_cell (r : Timestamp * Series) : option cell :=
  r.2 !! "Close".

Definition price_of (v : cell) : option float :=
  match v with
  | np_float64 x | float_cell x => Some x
  | str_cell _ => None
  end.

Definition price (r : Timestamp * Series) : option float :=
  close_cell r ≫= price_of.

(** Every row has a float "Close" value. *)
Definition priced (df : DataFrame) : bool :=
  forallb (fun r => bool_decide (is_Some (price r))) (iterrows df).

(** The (date, price) pairs of a frame, if every row has a float close. *)
Definition prices (df : DataFrame) : option (list (Timestamp * float)) :=
  mapM (fun r => pair r.1 <$> price r) (iterrows df).

(** Some price is [<= 0]; some price is equal to zero. *)
Definition nonpositive (df : DataFrame) : bool :=
  existsb (fun r => match price r with
                    | Some p => (p <=? 0)%float
                    | None => false
                    end) (iterrows df).

Definition zero_priced (df : DataFrame) : bool :=
  existsb (fun r => match price r with
                    | Some p => (p =? 0)%float
                    | None => false
                    end) (iterrows df).

(** Some row hands out a Python float equal to zero as its close: the one
    divisor at which the division of line 35 raises. *)
Definition zero_divisor (r : Timestamp * Series) : bool :=
  match close_cell r with
  | Some (float_cell p) => (p =? 0)%float
  | _ => false
  end.

Definition zero_division (df : DataFrame) : bool :=
  existsb zero_divisor (iterrows df).

(** A cell without its class: the number or the text it holds. *)
Definition value_of (v : cell) : float + string :=
  match v with
  | np_float64 x | float_cell x => inl x
  | str_cell s => inr s
  end.

Definition close_value (r : Timestamp * Series) : option (float + string) :=
  value_of <$> close_cell r.

(** Frames of dtype [object] for the examples: a text column beside the
    closes 0 and 10, and beside the closes 10 and 20. *)
Definition noted (p : float) (note : string) : Series :=
  {[ "Close" := float_cell p; "Note" := str_cell note ]}.

Definition noted_zero_then_ten : DataFrame :=
  object [ (0%Z, noted 0 "halted"); (1%Z, noted 10 "open") ].

Definition noted_frame : DataFrame :=
  object [ (0%Z, noted 10 "open"); (1%Z, noted 20 "open") ].

Definition noted_negative : DataFrame :=
  object [ (0%Z, noted (-10) "open"); (1%Z, noted 20 "open") ].

(** ** The loop as a function of the (date, close) pairs *)

(** The (date, close) pairs of a frame, if every row has a close. *)
Definition closes (df : Float64Frame) : option (list (Timestamp * float)) :=
  mapM (fun r => pair r.1 <$> close r) df.

Section Trace.

Variables rc ii : float.

(** The entries the loop appends from index [i] on, when it starts with
    [sh] shares and [inv] invested. *)
Fixpoint log_from (i : nat) (sh inv : float)
    (rows : list (Timestamp * float)) : list LedgerEntry :=
  match rows with
  | [] => []
  | (d, p) :: rows' =>
      let c := contribution_at rc ii i in
      let sh' := (sh + c / p)%float in
      let inv' := (inv + c)%float in
      mkEntry d p sh' inv' (sh' * p)%float :: log_from (S i) sh' inv' rows'
  end.

(** The totals after these rows. *)
Fixpoint totals_from (i : nat) (sh inv : float)
    (rows : list (Timestamp * float)) : float * float :=
  match rows with
  | [] => (sh, inv)
  | (d, p) :: rows' =>
      let c := contribution_at rc ii i in
      totals_from (S i) (sh + c / p)%float (inv + c)%float rows'
  end.

End Trace.

(** The running sum of the contributions up to and including interval [i]:
    [0.0 + (rc + ii) + rc + ... + rc], added in this order. *)
Definition invested_after (rc ii : float) (i : nat) : float :=
  Nat.iter i (fun acc => (acc + rc)%float) (0 + (rc + ii))%float.

(** ** Binary64 values *)

Module Binary64.

(** The mantissa and the exponent [binary_round_aux] ends with. *)
Definition rounded (mx ex : Z) (lx : location) : Z * Z :=
  let '(mrs', e') := shr_fexp prec emax mx ex lx in
  let '(mrs'', e'') :=
    shr_fexp prec emax
      (round_nearest_even (shr_m mrs') (loc_of_shr_record mrs')) e' loc_Exact in
  (shr_m mrs'', e'').

(** Not a NaN, and zero or above (either zero counts). *)
Definition SFnonneg (x : spec_float) : bool :=
  match x with
  | S754_zero _ => true
  | S754_infinity s | S754_finite s _ _ => negb s
  | S754_nan => false
  end.

(** A finite value above zero. *)
Definition SFpositive (x : spec_float) : bool :=
  match x with
  | S754_finite s _ _ => negb s
  | _ => false
  end.

(** The canonical mantissa and exponent of a whole number below [2 ^ 53]. *)
Definition whole_mantissa (N : positive) : positive :=
  Z.to_pos (Z.pos N * 2 ^ (53 - Z.pos (digits2_pos N))).
Definition whole_exponent (N : positive) : Z := Z.pos (digits2_pos N) - 53.

(** The binary64 value of a whole number. *)
Definition SFofZ (n : Z) : spec_float := binary_normalize prec emax n 0 false.

End Binary64.

Definition nonneg (x : float) : bool := Binary64.SFnonneg (Prim2SF x).

(** Zero or above, or a NaN. *)
Definition SFnonneg_or_nan (x : spec_float) : bool :=
  match x with
  | S754_nan => true
  | _ => Binary64.SFnonneg x
  end.
Definition nonneg_or_nan (x : float) : bool := SFnonneg_or_nan (Prim2SF x).
Definition positive_finite (x : float) : bool :=
  Binary64.SFpositive (Prim2SF x).

(** ** The rest of [main]'s data path *)

(** Lines 161-166: the "Profit/Loss" bars,
    [dca_df["Portfolio Value"] - dca_df["Total Investment"]]. *)
Definition profit_loss (dca_df : list LedgerEntry) : result (list float) :=
  portfolio_value ← column dca_df "Portfolio Value" Portfolio_Value;
  contributions ← column dca_df "Total Investment" Total_Investment;
  Ok (zip_with PrimFloat.sub portfolio_value contributions).

(** The frame lines 75-81 leave when they raise nothing: the columns "Date"
    and "Close" of the fetched history, row by row. *)
Abbreviation StockData := (list (Timestamp * float)).

(** Line 93: the mask [(Date >= start_date) & (Date <= end_date)]. *)
Definition in_range (start_date end_date : Timestamp)
    (r : Timestamp * float) : bool :=
  (start_date <=? r.1)%Z && (r.1 <=? end_date)%Z.

Definition filter_dates (stock_data : StockData)
    (start_date end_date : Timestamp) : StockData :=
  List.filter (in_range start_date end_date) stock_data.

(** Line 96: [set_index("Date")] leaves a float64 frame indexed by the dates,
    with the one column "Close". *)
Definition set_index_date (filtered_data : StockData) : Float64Frame :=
  close_frame filtered_data.

(** How a run of the script ends: with its results shown, at an [st.stop()],
    or with an exception that nothing catches. *)
Inductive run (A : Type) : Type :=
| Shown (a : A)
| Stopped
| Uncaught (e : exn).
Arguments Shown {A} a.
Arguments Stopped {A}.
Arguments Uncaught {A} e.

Section Main.

(** [frame.resample(rule).mean()], pandas' own. *)
Variable resample_mean : string -> Float64Frame -> Float64Frame.

(** Lines 97-100. *)
Definition adjust_frequency (frequency : string)
    (filtered_data : Float64Frame) : Float64Frame :=
  if String.eqb frequency "Weekly" then resample_mean "W" filtered_data
  else if String.eqb frequency "Monthly" then resample_mean "M" filtered_data
  else filtered_data.

(** Lines 93-118: from the fetched frame to the numbers shown. *)
Definition after_fetch (stock_data : StockData)
    (start_date end_date : Timestamp) (frequency : string)
    (regular_contribution initial_investment : float)
    : result (list LedgerEntry * float * float * summary) :=
  let filtered_data := filter_dates stock_data start_date end_date in
  let filtered_data := set_index_date filtered_data in
  let filtered_data := adjust_frequency frequency filtered_data in
  r ← calculate_dca filtered_data regular_contribution initial_investment;
  let '(dca_df, total_shares, total_invested) := r in
  s ← results dca_df total_invested;
  Ok (dca_df, total_shares, total_invested, s).

(** Lines 69-118 of [main], as a function of the widget values and of what
    the fetch of lines 75-81 comes to ([history]).  The script stops when the
    start date is not before the end date (lines 69-71), when the fetch raises
    (lines 88-90) and when the fetched frame is empty (lines 83-85). *)
Definition main (start_date end_date : Timestamp)
    (history : result StockData) (frequency : string)
    (regular_contribution initial_investment : float)
    : run (list LedgerEntry * float * float * summary) :=
  if (start_date >=? end_date)%Z then Stopped
  else
    match history with
    | Raise _ => Stopped
    | Ok [] => Stopped
    | Ok stock_data =>
        match after_fetch stock_data start_date end_date frequency
                regular_contribution initial_investment with
        | Ok shown => Shown shown
        | Raise e => Uncaught e
        end
    end.

End Main.

(** A stand-in for pandas' resampling in the examples; the daily path never
    calls it. *)
Definition no_resample (rule : string) (df : Float64Frame) : Float64Frame :=
  df.

(** The fetched rows of the reference scenario. *)
Definition basic_history (day : Timestamp) : StockData :=
  [ (day, 10%float); ((day + 1)%Z, 20%float); ((day + 2)%Z, 40%float) ].

(** More example frames: a zero price followed by a sound one; the closes of
    the reference scenario a week apart, and in falling order. *)
Definition zero_then_ten : Float64Frame :=
  [ (0%Z, close_only 0); (1%Z, close_only 10) ].
Definition basic_prices_weekly : Float64Frame :=
  [ (0%Z, close_only 10); (7%Z, close_only 20); (14%Z, close_only 40) ].
Definition falling_prices : Float64Frame :=
  [ (0%Z, close_only 40); (1%Z, close_only 20); (2%Z, close_only 10) ].

(** Not a NaN; neither a NaN nor an infinity. *)
Definition SFnotnan (x : spec_float) : bool :=
  match x with S754_nan => false | _ => true end.
Definition SFfinite (x : spec_float) : bool :=
  match x with S754_zero _ | S754_finite _ _ _ => true | _ => false end.

(** * Rounding in binary64 *)

Module Binary64Facts.
Import Binary64.

Local Open Scope Z_scope.

Lemma digits2_size p : digits2_pos p = Pos.size p.
Proof. induction p; simpl; congruence. Qed.

Lemma digits2_bounds p :
  2 ^ (Z.pos (digits2_pos p) - 1) <= Z.pos p < 2 ^ Z.pos (digits2_pos p).
Proof.
  rewrite digits2_size. split.
  - pose proof (Pos.size_le p) as H.
    apply Pos2Z.pos_le_pos in H.
    rewrite Pos2Z.inj_pow in H.
    replace (Z.pos (Pos.size p)) with (Z.succ (Z.pos (Pos.size p) - 1)) in H
      by lia.
    rewrite Z.pow_succ_r in H by lia.
    change (Z.pos p~0) with (2 * Z.pos p) in H. lia.
  - pose proof (Pos.size_gt p) as H.
    apply Pos2Z.pos_lt_pos in H. by rewrite Pos2Z.inj_pow in H.
Qed.

Lemma shr_1_div2 mrs : 0 <= shr_m mrs -> shr_m (shr_1 mrs) = shr_m mrs / 2.
Proof.
  destruct mrs as [m r s]; simpl. intros Hm.
  destruct m as [|[p|p|]|p]; try lia; simpl; try done.
  - rewrite (Pos2Z.inj_xI p).
    apply (Z.div_unique _ _ _ 1); lia.
  - rewrite (Pos2Z.inj_xO p).
    apply (Z.div_unique _ _ _ 0); lia.
Qed.

Lemma pow2_xI p : 2 ^ Z.pos p~1 = 2 * 2 ^ Z.pos p * 2 ^ Z.pos p.
Proof.
  rewrite (Pos2Z.inj_xI p), Z.pow_add_r, Z.pow_1_r, Z.pow_mul_r by lia.
  rewrite Z.pow_2_r, Z.pow_mul_l. ring.
Qed.

Lemma pow2_xO p : 2 ^ Z.pos p~0 = 2 ^ Z.pos p * 2 ^ Z.pos p.
Proof.
  rewrite (Pos2Z.inj_xO p), Z.pow_mul_r by lia.
  rewrite Z.pow_2_r, Z.pow_mul_l. ring.
Qed.

Lemma iter_shr_1_div p mrs :
  0 <= shr_m mrs ->
  shr_m (SpecFloat.iter_pos shr_1 p mrs) = shr_m mrs / 2 ^ Z.pos p.
Proof.
  revert mrs; induction p as [p IH|p IH|]; intros mrs Hm;
    cbn [SpecFloat.iter_pos];
    try assert (0 < 2 ^ Z.pos p) as Hpow by (apply Z.pow_pos_nonneg; lia).
  - assert (0 <= shr_m (shr_1 mrs)) as H1.
    { rewrite shr_1_div2 by done. apply Z.div_pos; lia. }
    assert (0 <= shr_m (SpecFloat.iter_pos shr_1 p (shr_1 mrs))) as H2.
    { rewrite IH by done. apply Z.div_pos; lia. }
    rewrite IH, IH, shr_1_div2 by done.
    rewrite !Z.div_div by lia. rewrite pow2_xI. f_equal; ring.
  - assert (0 <= shr_m (SpecFloat.iter_pos shr_1 p mrs)) as H2.
    { rewrite IH by done. apply Z.div_pos; lia. }
    rewrite IH, IH by done.
    rewrite !Z.div_div by lia. by rewrite pow2_xO.
  - rewrite shr_1_div2 by done. by rewrite Z.pow_1_r.
Qed.

Lemma fexp_eq e : fexp prec emax e = Z.max (e - 53) (-1074).
Proof. reflexivity. Qed.

Lemma shl_align_spec m e e' :
  let r := shl_align m e e' in
  r.2 <= e /\ r.2 = Z.min e e' /\ Z.pos r.1 = Z.pos m * 2 ^ (e - r.2).
Proof.
  unfold shl_align. destruct (e' - e) as [|d|d] eqn:Hd; simpl.
  - split_and!; [lia..|]. rewrite Z.sub_diag. simpl. lia.
  - split_and!; [lia..|]. rewrite Z.sub_diag. simpl. lia.
  - split_and!; [lia..|].
    replace (e - e') with (Z.pos d) by lia.
    change (Pos.iter xO m d) with (shift_pos d m).
    rewrite shift_pos_correct, Z.pow_pos_fold. lia.
Qed.

Lemma shr_spec mrs e n :
  0 <= shr_m mrs ->
  let r := shr mrs e n in
  shr_m r.1 = shr_m mrs / 2 ^ Z.max 0 n /\ r.2 = e + Z.max 0 n.
Proof.
  intros Hm. unfold shr. destruct n as [|p|p]; simpl.
  - rewrite Z.div_1_r. lia.
  - rewrite iter_shr_1_div by done. split; [done|lia].
  - rewrite Z.div_1_r. lia.
Qed.

Lemma shr_m_of_loc m l : shr_m (shr_record_of_loc m l) = m.
Proof. by destruct l as [|[]]. Qed.

Lemma shr_fexp_spec m e l :
  0 <= m ->
  let r := shr_fexp prec emax m e l in
  let n := Z.max 0 (fexp prec emax (Zdigits2 m + e) - e) in
  shr_m r.1 = m / 2 ^ n /\ r.2 = e + n.
Proof.
  intros Hm. unfold shr_fexp.
  pose proof (shr_spec (shr_record_of_loc m l) e
    (fexp prec emax (Zdigits2 m + e) - e)) as H.
  rewrite shr_m_of_loc in H. by apply H.
Qed.

Lemma round_nearest_even_bounds m l :
  m <= round_nearest_even m l <= m + 1.
Proof.
  unfold round_nearest_even. destruct l as [|[]]; try lia.
  destruct (Z.even m); lia.
Qed.

Lemma binary_round_aux_rounded sx mx ex lx :
  binary_round_aux prec emax sx mx ex lx =
  match (rounded mx ex lx).1 with
  | Z0 => S754_zero sx
  | Z.pos m =>
      if (rounded mx ex lx).2 <=? emax - prec then
        S754_finite sx m (rounded mx ex lx).2
      else S754_infinity sx
  | Z.neg _ => S754_nan
  end.
Proof.
  unfold binary_round_aux, rounded.
  destruct (shr_fexp prec emax mx ex lx) as [mrs' e'].
  by destruct (shr_fexp prec emax _ e' loc_Exact) as [mrs'' e''].
Qed.

Lemma rounded_nonneg mx ex lx : 0 <= mx -> 0 <= (rounded mx ex lx).1.
Proof.
  intros Hm. unfold rounded.
  pose proof (shr_fexp_spec mx ex lx Hm) as [H1 _].
  destruct (shr_fexp prec emax mx ex lx) as [mrs' e']. simpl in H1.
  set (m2 := round_nearest_even _ _).
  assert (0 <= m2) as Hm2.
  { pose proof (round_nearest_even_bounds (shr_m mrs')
      (loc_of_shr_record mrs')).
    assert (0 <= shr_m mrs') by (rewrite H1; apply Z.div_pos; lia).
    unfold m2. lia. }
  pose proof (shr_fexp_spec m2 e' loc_Exact Hm2) as [H2 _].
  destruct (shr_fexp prec emax m2 e' loc_Exact) as [mrs'' e'']. simpl in *.
  rewrite H2. apply Z.div_pos; lia.
Qed.

Lemma rounded_spec mx ex lx :
  0 <= mx ->
  exists m2,
    let n1 := Z.max 0 (fexp prec emax (Zdigits2 mx + ex) - ex) in
    let n2 :=
      Z.max 0 (fexp prec emax (Zdigits2 m2 + (ex + n1)) - (ex + n1)) in
    mx / 2 ^ n1 <= m2 <= mx / 2 ^ n1 + 1 /\
    rounded mx ex lx = (m2 / 2 ^ n2, ex + n1 + n2).
Proof.
  intros Hm. unfold rounded.
  pose proof (shr_fexp_spec mx ex lx Hm) as [H1 H1e].
  destruct (shr_fexp prec emax mx ex lx) as [mrs' e']. simpl in H1, H1e.
  pose proof (round_nearest_even_bounds (shr_m mrs') (loc_of_shr_record mrs'))
    as Hr.
  set (m2 := round_nearest_even _ _) in *.
  assert (0 <= m2) as Hm2.
  { assert (0 <= shr_m mrs') by (rewrite H1; apply Z.div_pos; lia). lia. }
  pose proof (shr_fexp_spec m2 e' loc_Exact Hm2) as [H2 H2e].
  destruct (shr_fexp prec emax m2 e' loc_Exact) as [mrs'' e''].
  simpl in H2, H2e. exists m2. cbv zeta. rewrite <- H1e, <- H1.
  split; [done|]. by rewrite H2, H2e.
Qed.

Lemma pow2_le a b : 0 <= a <= b -> 2 ^ a <= 2 ^ b.
Proof. intros. apply Z.pow_le_mono_r; lia. Qed.

Lemma pow2_lt_inv a b : 0 <= b -> 2 ^ a < 2 ^ b -> a < b.
Proof. intros Hb H. apply (Z.pow_lt_mono_r_iff 2); lia. Qed.

Lemma div_pow2_lower a b n : 0 <= n -> a * 2 ^ n <= b -> a <= b / 2 ^ n.
Proof.
  intros Hn H. apply Z.div_le_lower_bound; [by apply Z.pow_pos_nonneg|lia].
Qed.

Lemma div_pow2_upper b n k :
  0 <= n -> 0 <= k -> b < 2 ^ (n + k) -> b / 2 ^ n < 2 ^ k.
Proof.
  intros Hn Hk H. apply Z.div_lt_upper_bound; [by apply Z.pow_pos_nonneg|].
  by rewrite <- Z.pow_add_r.
Qed.

Lemma canonical_mantissa_inv m e :
  canonical_mantissa prec emax m e = true ->
  -1074 <= e /\ Z.pos (digits2_pos m) <= 53 /\
  (e = -1074 \/ Z.pos (digits2_pos m) = 53).
Proof.
  unfold canonical_mantissa. rewrite fexp_eq. intros H%Z.eqb_eq. lia.
Qed.

(** Rounding a value that is at least a representable [mx * 2 ^ ex] gives a
    mantissa and an exponent that compare as at least [(mx, ex)]. *)
Lemma rounded_ge mx ex M e lx :
  canonical_mantissa prec emax mx ex = true ->
  e <= ex -> Z.pos mx * 2 ^ (ex - e) <= Z.pos M ->
  let r := rounded (Z.pos M) e lx in
  0 < r.1 /\ (ex < r.2 \/ ex = r.2 /\ Z.pos mx <= r.1).
Proof.
  intros (Hex & Hdx & Hcan)%canonical_mantissa_inv He HM.
  pose proof (digits2_bounds mx) as Hbx.
  pose proof (digits2_bounds M) as HbM.
  set (dx := Z.pos (digits2_pos mx)) in *.
  set (dM := Z.pos (digits2_pos M)) in *.
  assert (0 < dx) as Hdx0 by done. assert (0 < dM) as HdM0 by done.
  destruct (rounded_spec (Z.pos M) e lx) as (m2 & Hm2 & ->); [done|].
  cbn [Zdigits2] in *. fold dM in Hm2 |- *. rewrite !fexp_eq in *.
  set (n1 := Z.max 0 (Z.max (dM + e - 53) (-1074) - e)) in *.
  set (m1 := Z.pos M / 2 ^ n1) in *.
  assert (0 <= n1) as Hn1 by lia.
  (* magnitudes *)
  assert (dx + ex <= dM + e) as Hg.
  { assert (2 ^ (dx - 1 + (ex - e)) < 2 ^ dM) as H.
    { rewrite Z.pow_add_r by lia.
      assert (0 < 2 ^ (ex - e)) by (apply Z.pow_pos_nonneg; lia). nia. }
    apply pow2_lt_inv in H; lia. }
  assert (2 ^ n1 <= Z.pos M) as Hlow.
  { destruct (Z.max_spec 0 (Z.max (dM + e - 53) (-1074) - e))
      as [[_ Hn]|[_ Hn]]; fold n1 in Hn; [|rewrite Hn; simpl; lia].
    destruct (Z.max_spec (dM + e - 53) (-1074)) as [[_ Hk]|[_ Hk]];
      rewrite Hk in Hn.
    - assert (2 ^ n1 <= 2 ^ (ex - e)) by (apply pow2_le; lia).
      assert (0 < 2 ^ (ex - e)) by (apply Z.pow_pos_nonneg; lia). nia.
    - assert (2 ^ n1 <= 2 ^ (dM - 1)) by (apply pow2_le; lia). lia. }
  assert (1 <= m1) as Hm1.
  { apply (div_pow2_lower 1); lia. }
  assert (m1 < 2 ^ 53) as Hm1u.
  { apply div_pow2_upper; [lia..|].
    assert (2 ^ dM <= 2 ^ (n1 + 53)) by (apply pow2_le; lia). lia. }
  assert (ex <= e + n1) as HE by (unfold n1; lia).
  assert (e + n1 = ex -> Z.pos mx <= m1) as Heq.
  { intros Hn. apply div_pow2_lower; [done|].
    by replace n1 with (ex - e) by lia. }
  (* the second shift *)
  destruct m2 as [|p2|p2]; [lia| |lia].
  cbn [Zdigits2] in *.
  pose proof (digits2_bounds p2) as Hb2.
  set (d2 := Z.pos (digits2_pos p2)) in *.
  assert (0 < d2) as Hd20 by done.
  destruct (Z.eq_dec (Z.pos p2) (2 ^ 53)) as [Htop|Htop].
  - assert (d2 = 54) as ->.
    { rewrite Htop in Hb2. destruct Hb2 as [Hl Hu].
      apply Z.pow_le_mono_r_iff in Hl; [|lia..].
      apply pow2_lt_inv in Hu; lia. }
    replace (Z.max 0 (Z.max (54 + (e + n1) - 53) (-1074) - (e + n1)))
      with 1 by lia.
    rewrite Htop. cbn [fst snd]. split; [reflexivity|left; lia].
  - assert (d2 <= 53) as Hd2.
    { destruct Hb2 as [Hl _].
      assert (2 ^ (d2 - 1) < 2 ^ 53) as Hl' by lia.
      apply pow2_lt_inv in Hl'; lia. }
    replace (Z.max 0 (Z.max (d2 + (e + n1) - 53) (-1074) - (e + n1)))
      with 0 by lia.
    rewrite Z.pow_0_r, Z.div_1_r, Z.add_0_r. simpl.
    split; [lia|].
    destruct (Z.eq_dec ex (e + n1)) as [Hc|Hc]; [right|left; lia].
    split; [done|]. specialize (Heq (eq_sym Hc)). lia.
Qed.

Lemma binary_round_aux_nonneg m e l :
  0 <= m -> SFnonneg (binary_round_aux prec emax false m e l) = true.
Proof.
  intros Hm. rewrite binary_round_aux_rounded.
  pose proof (rounded_nonneg m e l Hm) as H.
  destruct (rounded m e l).1; [done| |lia].
  by destruct (_ <=? _).
Qed.

Lemma binary_round_nonneg m e :
  SFnonneg (binary_round prec emax false m e) = true.
Proof.
  unfold binary_round. destruct (shl_align _ _ _) as [mz ez].
  by apply binary_round_aux_nonneg.
Qed.

Lemma SFadd_nonneg x y :
  SFnonneg x = true -> SFnonneg y = true ->
  SFnonneg (SFadd prec emax x y) = true.
Proof.
  destruct x as [sx|[]| |[] mx ex], y as [sy|[]| |[] my ey]; try done.
  - by destruct sx, sy.
  - intros _ _. cbn [SFadd cond_Zopp]. apply binary_round_nonneg.
Qed.

Lemma SFdiv_nonneg x my ey :
  SFnonneg x = true ->
  SFnonneg (SFdiv prec emax x (S754_finite false my ey)) = true.
Proof.
  destruct x as [sx|[]| |[] mx ex]; try done.
  intros _. cbn [SFdiv xorb]. unfold SFdiv_core_binary.
  set (m' := match _ with Z0 => _ | Z.pos _ => _ | Z.neg _ => _ end).
  assert (0 <= m') as Hm'.
  { unfold m'. destruct (_ - _ - _); [done| |done].
    rewrite Z.shiftl_mul_pow2 by done.
    apply Z.mul_nonneg_nonneg; [done|]. apply Z.pow_nonneg; lia. }
  pose proof (Z.div_pos m' (Z.pos my) Hm' eq_refl) as Hq.
  unfold Z.div in Hq.
  destruct (Z.div_eucl m' (Z.pos my)) as [q r].
  by apply binary_round_aux_nonneg.
Qed.

Lemma SFmul_nonneg x my ey :
  SFnonneg x = true ->
  SFnonneg (SFmul prec emax x (S754_finite false my ey)) = true.
Proof.
  destruct x as [sx|[]| |[] mx ex]; try done.
  intros _. cbn [SFmul xorb]. by apply binary_round_aux_nonneg.
Qed.

Lemma SFleb_refl x : SFnonneg x = true -> SFleb x x = true.
Proof.
  destruct x as [sx|[]| |[] mx ex]; try done.
  intros _. unfold SFleb, SFcompare.
  by rewrite Z.compare_refl, Pos.compare_cont_refl.
Qed.

Lemma SFeqb_refl x : SFnonneg x = true -> SFeqb x x = true.
Proof.
  destruct x as [sx|[]| |[] mx ex]; try done.
  intros _. unfold SFeqb, SFcompare.
  by rewrite Z.compare_refl, Pos.compare_cont_refl.
Qed.

(** Adding a non-negative value never takes a non-negative value down. *)
Lemma SFadd_ge x y :
  valid_binary x = true -> valid_binary y = true ->
  SFnonneg x = true -> SFnonneg y = true ->
  SFleb x (SFadd prec emax x y) = true.
Proof.
  destruct x as [sx|[]| |[] mx ex], y as [sy|[]| |[] my ey]; try done.
  - by destruct sx, sy.
  - intros _ _ _ _. by apply SFleb_refl.
  - intros [Hx _]%andb_true_iff [Hy _]%andb_true_iff _ _.
    cbn [SFadd cond_Zopp].
    set (ez := Z.min ex ey).
    pose proof (shl_align_spec mx ex ez) as (_ & Hxe & Hxm).
    pose proof (shl_align_spec my ey ez) as (_ & Hye & Hym).
    destruct (shl_align mx ex ez) as [mx' ex'],
      (shl_align my ey ez) as [my' ey']; cbn [fst snd] in *.
    change (Z.pos mx' + Z.pos my') with (Z.pos (mx' + my')).
    cbn [binary_normalize]. unfold binary_round.
    pose proof (shl_align_spec (mx' + my') ez
      (fexp prec emax (Z.pos (digits2_pos (mx' + my')) + ez)))
      as (Hze & _ & Hzm).
    destruct (shl_align (mx' + my') ez _) as [mz ez']; cbn [fst snd] in *.
    rewrite binary_round_aux_rounded.
    assert (ex' = ez) as -> by (unfold ez in *; lia).
    destruct (rounded_ge mx ex mz ez' loc_Exact Hx) as [Hpos Hcmp].
    { unfold ez in *; lia. }
    { rewrite Hzm, Pos2Z.inj_add, Hxm.
      replace (ex - ez') with ((ex - ez) + (ez - ez')) by lia.
      rewrite Z.pow_add_r by (unfold ez in *; lia).
      assert (0 < 2 ^ (ez - ez')) by (apply Z.pow_pos_nonneg; lia).
      nia. }
    destruct (rounded (Z.pos mz) ez' loc_Exact) as [m3 e3]; cbn [fst snd] in *.
    destruct m3 as [|m3|m3]; [lia| |lia].
    destruct (e3 <=? emax - prec); [|done].
    unfold SFleb, SFcompare.
    destruct Hcmp as [Hlt|[-> Hle]].
    + apply Z.compare_lt_iff in Hlt. by rewrite Hlt.
    + rewrite Z.compare_refl.
      change ((mx ?= m3)%positive <> Gt) in Hle. unfold Pos.compare in Hle.
      by destruct (Pos.compare_cont Eq mx m3).
Qed.

(** ** Whole numbers: sums and products without rounding *)

Lemma digits2_unique p d :
  2 ^ (d - 1) <= Z.pos p < 2 ^ d -> 0 < d -> Z.pos (digits2_pos p) = d.
Proof.
  intros [Hl Hu] Hd. pose proof (digits2_bounds p) as [Hl' Hu'].
  assert (0 < Z.pos (digits2_pos p)) by done.
  assert (d - 1 < Z.pos (digits2_pos p)).
  { apply pow2_lt_inv; lia. }
  assert (Z.pos (digits2_pos p) - 1 < d).
  { apply pow2_lt_inv; lia. }
  lia.
Qed.

Lemma digits2_shift p q j :
  0 <= j -> Z.pos q = Z.pos p * 2 ^ j ->
  Z.pos (digits2_pos q) = Z.pos (digits2_pos p) + j.
Proof.
  intros Hj Hq. pose proof (digits2_bounds p) as [Hl Hu].
  assert (0 < Z.pos (digits2_pos p)) by done.
  assert (0 < 2 ^ j) by (by apply Z.pow_pos_nonneg).
  apply digits2_unique; [|lia]. rewrite Hq.
  replace (Z.pos (digits2_pos p) + j - 1) with (Z.pos (digits2_pos p) - 1 + j)
    by lia.
  rewrite !Z.pow_add_r by lia. nia.
Qed.

Lemma digits2_mono p q :
  Z.pos p <= Z.pos q -> Z.pos (digits2_pos p) <= Z.pos (digits2_pos q).
Proof.
  intros Hpq. pose proof (digits2_bounds p) as [Hl _].
  pose proof (digits2_bounds q) as [_ Hu].
  assert (Z.pos (digits2_pos p) - 1 < Z.pos (digits2_pos q));
    [apply pow2_lt_inv; [done|lia]|lia].
Qed.

Lemma digits2_below p : Z.pos p < 2 ^ 53 -> Z.pos (digits2_pos p) <= 53.
Proof.
  intros Hp. pose proof (digits2_bounds p) as [Hl _].
  assert (Z.pos (digits2_pos p) - 1 < 53); [apply pow2_lt_inv; lia|lia].
Qed.

Lemma digits2_mul p q :
  Z.pos (digits2_pos p) + Z.pos (digits2_pos q) - 1
  <= Z.pos (digits2_pos (p * q)).
Proof.
  pose proof (digits2_bounds p) as [Hp _].
  pose proof (digits2_bounds q) as [Hq _].
  pose proof (digits2_bounds (p * q)) as [_ Hpq].
  assert (0 < Z.pos (digits2_pos p)) by done.
  assert (0 < Z.pos (digits2_pos q)) by done.
  assert (2 ^ (Z.pos (digits2_pos p) - 1 + (Z.pos (digits2_pos q) - 1))
          < 2 ^ Z.pos (digits2_pos (p * q))) as H1.
  { rewrite Z.pow_add_r by lia. rewrite Pos2Z.inj_mul in Hpq.
    assert (0 < 2 ^ (Z.pos (digits2_pos p) - 1)) by (apply Z.pow_pos_nonneg; lia).
    assert (0 < 2 ^ (Z.pos (digits2_pos q) - 1)) by (apply Z.pow_pos_nonneg; lia).
    nia. }
  apply pow2_lt_inv in H1; [lia|done].
Qed.

Lemma shr_1_exact k :
  0 <= k -> shr_1 (Build_shr_record (2 * k) false false)
            = Build_shr_record k false false.
Proof. by destruct k as [|p|p]. Qed.

Lemma iter_shr_1_exact p k :
  0 <= k ->
  SpecFloat.iter_pos shr_1 p (Build_shr_record (k * 2 ^ Z.pos p) false false)
  = Build_shr_record k false false.
Proof.
  revert k; induction p as [p IH|p IH|]; intros k Hk;
    cbn [SpecFloat.iter_pos];
    try assert (0 < 2 ^ Z.pos p) as Hpow by (apply Z.pow_pos_nonneg; lia).
  - rewrite pow2_xI.
    replace (k * (2 * 2 ^ Z.pos p * 2 ^ Z.pos p))
      with (2 * (k * 2 ^ Z.pos p * 2 ^ Z.pos p)) by ring.
    rewrite shr_1_exact by nia. rewrite IH by nia. by apply IH.
  - rewrite pow2_xO, Z.mul_assoc. rewrite IH by nia. by apply IH.
  - rewrite Z.pow_1_r, Z.mul_comm. by apply shr_1_exact.
Qed.

Lemma shr_exact k e n :
  0 <= k -> 0 <= n ->
  shr (Build_shr_record (k * 2 ^ n) false false) e n
  = (Build_shr_record k false false, e + n).
Proof.
  intros Hk Hn. unfold shr. destruct n as [|p|p]; [| |lia].
  - by rewrite Z.pow_0_r, Z.mul_1_r, Z.add_0_r.
  - by rewrite iter_shr_1_exact.
Qed.

(** A mantissa whose low bits are zero loses nothing when it is brought to
    its exponent. *)
Lemma shr_fexp_exact m e k :
  0 <= k ->
  let n := fexp prec emax (Zdigits2 m + e) - e in
  0 <= n -> m = k * 2 ^ n ->
  shr_fexp prec emax m e loc_Exact = (Build_shr_record k false false, e + n).
Proof.
  intros Hk n Hn Hm. unfold shr_fexp. fold n. cbn [shr_record_of_loc].
  rewrite Hm at 1. by apply shr_exact.
Qed.

Lemma whole_mantissa_spec N :
  Z.pos (digits2_pos N) <= 53 ->
  Z.pos (whole_mantissa N) = Z.pos N * 2 ^ (53 - Z.pos (digits2_pos N)) /\
  Z.pos (digits2_pos (whole_mantissa N)) = 53.
Proof.
  intros Hd. unfold whole_mantissa.
  assert (0 < 2 ^ (53 - Z.pos (digits2_pos N))) by (apply Z.pow_pos_nonneg; lia).
  assert (Z.pos (Z.to_pos (Z.pos N * 2 ^ (53 - Z.pos (digits2_pos N))))
          = Z.pos N * 2 ^ (53 - Z.pos (digits2_pos N))) as Heq.
  { rewrite Z2Pos.id; [done|nia]. }
  split; [done|].
  rewrite (digits2_shift N _ (53 - Z.pos (digits2_pos N))); [lia|lia|done].
Qed.

(** Rounding is the identity on a whole number below [2 ^ 53], however its
    mantissa is padded with zeros. *)
Lemma binary_round_aux_exact N M e :
  Z.pos (digits2_pos N) <= 53 ->
  e <= whole_exponent N ->
  Z.pos M = Z.pos N * 2 ^ (- e) ->
  binary_round_aux prec emax false (Z.pos M) e loc_Exact =
  S754_finite false (whole_mantissa N) (whole_exponent N).
Proof.
  intros Hd He HM. unfold whole_exponent in *.
  destruct (whole_mantissa_spec N Hd) as [HK HdK].
  set (d := Z.pos (digits2_pos N)) in *.
  assert (0 < d) as Hd0 by done.
  assert (Z.pos (digits2_pos M) = d + - e) as HdM.
  { apply (digits2_shift N); [lia|done]. }
  unfold binary_round_aux.
  rewrite (shr_fexp_exact (Z.pos M) e (Z.pos (whole_mantissa N))); [|done| |].
  - cbn [Zdigits2]. rewrite HdM, fexp_eq.
    replace (e + (Z.max (d + - e + e - 53) (-1074) - e)) with (d - 53) by lia.
    cbn [shr_m loc_of_shr_record round_nearest_even].
    rewrite (shr_fexp_exact _ (d - 53) (Z.pos (whole_mantissa N))); [|done| |].
    + cbn [Zdigits2]. rewrite HdK, fexp_eq.
      replace ((d - 53) + (Z.max (53 + (d - 53) - 53) (-1074) - (d - 53)))
        with (d - 53) by lia.
      cbn [shr_m].
      assert ((d - 53 <=? emax - prec) = true) as ->; [|done].
      apply Z.leb_le. change (emax - prec) with 971. lia.
    + cbn [Zdigits2]. rewrite HdK, fexp_eq. lia.
    + cbn [Zdigits2]. rewrite HdK, fexp_eq.
      replace (Z.max (53 + (d - 53) - 53) (-1074) - (d - 53)) with 0 by lia.
      by rewrite Z.pow_0_r, Z.mul_1_r.
  - cbn [Zdigits2]. rewrite HdM, fexp_eq. lia.
  - cbn [Zdigits2]. rewrite HdM, fexp_eq.
    replace (Z.max (d + - e + e - 53) (-1074) - e) with (d - 53 - e) by lia.
    rewrite HM, HK, <- Z.mul_assoc, <- Z.pow_add_r by lia.
    do 2 f_equal. lia.
Qed.

Lemma SFofZ_pos N :
  Z.pos (digits2_pos N) <= 53 ->
  SFofZ (Z.pos N) = S754_finite false (whole_mantissa N) (whole_exponent N).
Proof.
  intros Hd. unfold SFofZ, binary_normalize, binary_round.
  pose proof (shl_align_spec N 0 (fexp prec emax (Z.pos (digits2_pos N) + 0)))
    as (_ & He & Hm).
  destruct (shl_align N 0 _) as [mz ez]; cbn [fst snd] in *.
  rewrite fexp_eq in He.
  apply binary_round_aux_exact; [done|unfold whole_exponent; lia|].
  by rewrite Hm.
Qed.

Lemma SFadd_whole A B :
  Z.pos (digits2_pos (A + B)) <= 53 ->
  SFadd prec emax
    (S754_finite false (whole_mantissa A) (whole_exponent A))
    (S754_finite false (whole_mantissa B) (whole_exponent B))
  = S754_finite false (whole_mantissa (A + B)) (whole_exponent (A + B)).
Proof.
  intros Hd.
  assert (Z.pos (digits2_pos A) <= Z.pos (digits2_pos (A + B))) as HdA
    by (apply digits2_mono; lia).
  assert (Z.pos (digits2_pos B) <= Z.pos (digits2_pos (A + B))) as HdB
    by (apply digits2_mono; lia).
  destruct (whole_mantissa_spec A) as [HA _]; [lia|].
  destruct (whole_mantissa_spec B) as [HB _]; [lia|].
  cbn [SFadd cond_Zopp]. unfold whole_exponent in *.
  set (dA := Z.pos (digits2_pos A)) in *.
  set (dB := Z.pos (digits2_pos B)) in *.
  set (d := Z.pos (digits2_pos (A + B))) in *.
  set (ez := Z.min (dA - 53) (dB - 53)).
  pose proof (shl_align_spec (whole_mantissa A) (dA - 53) ez) as (_ & Hxe & Hxm).
  pose proof (shl_align_spec (whole_mantissa B) (dB - 53) ez) as (_ & Hye & Hym).
  destruct (shl_align (whole_mantissa A) (dA - 53) ez) as [mx' ex'],
    (shl_align (whole_mantissa B) (dB - 53) ez) as [my' ey']; cbn [fst snd] in *.
  change (Z.pos mx' + Z.pos my') with (Z.pos (mx' + my')).
  cbn [binary_normalize]. unfold binary_round.
  pose proof (shl_align_spec (mx' + my') ez
    (fexp prec emax (Z.pos (digits2_pos (mx' + my')) + ez))) as (Hze & _ & Hzm).
  destruct (shl_align (mx' + my') ez _) as [mz ez']; cbn [fst snd] in *.
  assert (ex' = ez) as -> by (unfold ez in *; lia).
  assert (ey' = ez) as -> by (unfold ez in *; lia).
  assert (ez <= 0) as Hez by (unfold ez; lia).
  assert (Z.pos mx' = Z.pos A * 2 ^ (- ez)) as Hx.
  { rewrite Hxm, HA, <- Z.mul_assoc, <- Z.pow_add_r by (unfold ez; lia).
    do 2 f_equal. lia. }
  assert (Z.pos my' = Z.pos B * 2 ^ (- ez)) as Hy.
  { rewrite Hym, HB, <- Z.mul_assoc, <- Z.pow_add_r by (unfold ez; lia).
    do 2 f_equal. lia. }
  apply binary_round_aux_exact; [done|unfold whole_exponent, ez in *; lia|].
  rewrite Hzm, Pos2Z.inj_add, Hx, Hy, (Pos2Z.inj_add A B).
  replace (- ez') with (- ez + (ez - ez')) by lia.
  rewrite Z.pow_add_r by lia. ring.
Qed.

Lemma SFmul_whole A B :
  Z.pos (digits2_pos (A * B)) <= 53 ->
  SFmul prec emax
    (S754_finite false (whole_mantissa A) (whole_exponent A))
    (S754_finite false (whole_mantissa B) (whole_exponent B))
  = S754_finite false (whole_mantissa (A * B)) (whole_exponent (A * B)).
Proof.
  intros Hd. pose proof (digits2_mul A B) as Hmul.
  assert (Z.pos (digits2_pos A) <= Z.pos (digits2_pos (A * B))) as HdA
    by (apply digits2_mono; nia).
  assert (Z.pos (digits2_pos B) <= Z.pos (digits2_pos (A * B))) as HdB
    by (apply digits2_mono; nia).
  destruct (whole_mantissa_spec A) as [HA _]; [lia|].
  destruct (whole_mantissa_spec B) as [HB _]; [lia|].
  cbn [SFmul xorb]. unfold whole_exponent in *.
  apply binary_round_aux_exact; [done|unfold whole_exponent; lia|].
  rewrite Pos2Z.inj_mul, HA, HB, (Pos2Z.inj_mul A B).
  replace (- (Z.pos (digits2_pos A) - 53 + (Z.pos (digits2_pos B) - 53)))
    with ((53 - Z.pos (digits2_pos A)) + (53 - Z.pos (digits2_pos B))) by lia.
  rewrite Z.pow_add_r by lia. ring.
Qed.

Lemma SFofZ_add a b :
  0 <= a -> 0 <= b -> a + b < 2 ^ 53 ->
  SFadd prec emax (SFofZ a) (SFofZ b) = SFofZ (a + b).
Proof.
  intros Ha Hb Hab.
  destruct a as [|A|A]; [|destruct b as [|B|B]|]; try lia.
  - change (SFofZ 0) with (S754_zero false). rewrite Z.add_0_l.
    destruct b as [|B|B]; [done| |lia].
    rewrite SFofZ_pos; [done|by apply digits2_below].
  - change (SFofZ 0) with (S754_zero false). rewrite Z.add_0_r.
    rewrite SFofZ_pos; [done|apply digits2_below; lia].
  - change (Z.pos A + Z.pos B) with (Z.pos (A + B)) in *.
    rewrite !SFofZ_pos by (apply digits2_below; lia).
    apply SFadd_whole. by apply digits2_below.
Qed.

Lemma SFofZ_mul a b :
  0 <= a -> 0 <= b -> a < 2 ^ 53 -> b < 2 ^ 53 -> a * b < 2 ^ 53 ->
  SFmul prec emax (SFofZ a) (SFofZ b) = SFofZ (a * b).
Proof.
  intros Ha Hb Ha' Hb' Hab.
  destruct a as [|A|A]; [|destruct b as [|B|B]|]; try lia.
  - change (SFofZ 0) with (S754_zero false). rewrite Z.mul_0_l.
    destruct b as [|B|B]; [done| |lia].
    rewrite SFofZ_pos; [done|by apply digits2_below].
  - change (SFofZ 0) with (S754_zero false). rewrite Z.mul_0_r.
    rewrite SFofZ_pos; [done|by apply digits2_below].
  - change (Z.pos A * Z.pos B) with (Z.pos (A * B)) in *.
    rewrite !SFofZ_pos by (by apply digits2_below).
    apply SFmul_whole. by apply digits2_below.
Qed.

End Binary64Facts.

(** * Float facts, through the specification of the primitives *)

Section FloatFacts.

Import Binary64 Binary64Facts.

Lemma leb_zero_nonneg x : (0 <=? x)%float = true -> nonneg x = true.
Proof.
  rewrite FloatAxioms.leb_spec. unfold nonneg.
  change (Prim2SF 0) with (S754_zero false).
  by destruct (Prim2SF x) as [|[]| |[]].
Qed.

Lemma is_finite_spec x :
  is_finite x = true ->
  match Prim2SF x with
  | S754_nan | S754_infinity _ => False
  | _ => True
  end.
Proof.
  unfold is_finite, is_nan, is_infinity.
  rewrite !FloatAxioms.eqb_spec, FloatAxioms.abs_spec.
  change (Prim2SF infinity) with (S754_infinity false).
  by destruct (Prim2SF x) as [|[]| |].
Qed.

Lemma positive_price_spec p :
  (0 <? p)%float = true -> is_finite p = true -> positive_finite p = true.
Proof.
  intros Hp Hf%is_finite_spec. revert Hp Hf.
  rewrite FloatAxioms.ltb_spec. unfold positive_finite.
  change (Prim2SF 0) with (S754_zero false).
  by destruct (Prim2SF p) as [|[]| |[]].
Qed.

Lemma add_nonneg x y :
  nonneg x = true -> nonneg y = true -> nonneg (x + y) = true.
Proof. unfold nonneg. rewrite FloatAxioms.add_spec. apply SFadd_nonneg. Qed.

Lemma add_ge x y :
  nonneg x = true -> nonneg y = true -> (x <=? x + y)%float = true.
Proof.
  unfold nonneg. rewrite FloatAxioms.leb_spec, FloatAxioms.add_spec.
  apply SFadd_ge; apply Prim2SF_valid.
Qed.

Lemma div_nonneg x p :
  nonneg x = true -> positive_finite p = true -> nonneg (x / p) = true.
Proof.
  unfold nonneg, positive_finite. rewrite FloatAxioms.div_spec.
  destruct (Prim2SF p) as [| | |[] mp ep]; try done.
  intros Hx _. by apply SFdiv_nonneg.
Qed.

Lemma mul_nonneg x p :
  nonneg x = true -> positive_finite p = true -> nonneg (x * p) = true.
Proof.
  unfold nonneg, positive_finite. rewrite FloatAxioms.mul_spec.
  destruct (Prim2SF p) as [| | |[] mp ep]; try done.
  intros Hx _. by apply SFmul_nonneg.
Qed.

(** [x == x] holds of every value but NaN. *)
Lemma eqb_refl x : nonneg x = true -> (x =? x)%float = true.
Proof. unfold nonneg. rewrite FloatAxioms.eqb_spec. apply SFeqb_refl. Qed.

Lemma contribution_nonneg (rc ii : float) i :
  nonneg rc = true -> nonneg ii = true ->
  nonneg (contribution_at rc ii i) = true.
Proof.
  intros Hrc Hii. unfold contribution_at.
  destruct (Nat.eqb i 0); [by apply add_nonneg|done].
Qed.

(** The percentage line with nothing invested: never a finite number. *)
Lemma percentage_of_nothing fv ti :
  (ti =? 0)%float = true ->
  is_finite ((fv - ti) / ti * 100) = false.
Proof.
  rewrite FloatAxioms.eqb_spec. change (Prim2SF 0) with (S754_zero false).
  intros Hti. unfold is_finite, is_nan, is_infinity.
  rewrite !FloatAxioms.eqb_spec, FloatAxioms.abs_spec, !FloatAxioms.mul_spec,
    !FloatAxioms.div_spec, !FloatAxioms.sub_spec.
  change (Prim2SF infinity) with (S754_infinity false).
  change (Prim2SF 100) with (S754_finite false 7036874417766400 (-46)).
  destruct (Prim2SF ti) as [st|[]| |[]]; try done.
  by destruct (Prim2SF fv) as [[]|[]| |[]], st.
Qed.

(** A quotient by zero is an infinity or a NaN, and so is any sum with it. *)
Lemma add_div_zero_not_finite x c p :
  (p =? 0)%float = true -> is_finite (x + c / p) = false.
Proof.
  rewrite FloatAxioms.eqb_spec. change (Prim2SF 0) with (S754_zero false).
  intros Hp. unfold is_finite, is_nan, is_infinity.
  rewrite !FloatAxioms.eqb_spec, FloatAxioms.abs_spec, !FloatAxioms.add_spec,
    !FloatAxioms.div_spec.
  change (Prim2SF infinity) with (S754_infinity false).
  destruct (Prim2SF p) as [sp|[]| |[]]; try done.
  by destruct (Prim2SF c) as [[]|[]| |[]], (Prim2SF x) as [[]|[]| |[]], sp.
Qed.

Lemma float_neq (x y : float) :
  (x =? y)%float = false -> is_nan x = false -> x <> y.
Proof.
  intros Hne Hnan ->. unfold is_nan in Hnan.
  rewrite Hne in Hnan. discriminate.
Qed.

Lemma Prim2SF_float_of_Z z :
  (0 <= z < 2 ^ 53)%Z -> Prim2SF (float_of_Z z) = SFofZ z.
Proof.
  intros Hz. unfold float_of_Z, SFofZ.
  rewrite of_uint63_spec, Uint63.of_Z_spec, Z.mod_small; [done|].
  change wB with (2 ^ 63)%Z. change (2 ^ 63)%Z with (2 ^ 53 * 1024)%Z. lia.
Qed.

Lemma add_whole a b :
  (0 <= a)%Z -> (0 <= b)%Z -> (a + b < 2 ^ 53)%Z ->
  (float_of_Z a + float_of_Z b)%float = float_of_Z (a + b).
Proof.
  intros Ha Hb Hab. apply Prim2SF_inj.
  rewrite FloatAxioms.add_spec, !Prim2SF_float_of_Z by lia.
  by apply SFofZ_add.
Qed.

Lemma mul_whole a b :
  (0 <= a)%Z -> (0 <= b)%Z ->
  (a < 2 ^ 53)%Z -> (b < 2 ^ 53)%Z -> (a * b < 2 ^ 53)%Z ->
  (float_of_Z a * float_of_Z b)%float = float_of_Z (a * b).
Proof.
  intros Ha Hb Ha' Hb' Hab. apply Prim2SF_inj.
  rewrite FloatAxioms.mul_spec, !Prim2SF_float_of_Z by nia.
  by apply SFofZ_mul.
Qed.

End FloatFacts.

(** * The loop and its trace *)

Lemma closes_cons d row (df : Float64Frame) :
  closes ((d, row) :: df) =
  match row !! "Close" with
  | Some p => cons (d, p) <$> closes df
  | None => None
  end.
Proof.
  unfold closes, close; simpl.
  destruct (row !! "Close"); simpl; [|done].
  by destruct (mapM _ df).
Qed.

Lemma has_close_closes (df : Float64Frame) :
  has_close df = true -> exists rows, closes df = Some rows.
Proof.
  induction df as [|[d row] df IH]; [by eexists|].
  rewrite closes_cons. unfold has_close; cbn [forallb].
  intros [Hr Hdf]%andb_true_iff. apply bool_decide_eq_true in Hr.
  destruct Hr as [p Hp], (IH Hdf) as [rows Hrows].
  unfold close in Hp; simpl in Hp. rewrite Hp, Hrows. by eexists.
Qed.

Lemma closes_length (df : Float64Frame) rows :
  closes df = Some rows -> length rows = length df.
Proof.
  revert rows; induction df as [|[d row] df IH]; intros rows.
  - by intros [= <-].
  - rewrite closes_cons. destruct (row !! "Close"); [|done].
    destruct (closes df) as [rows'|]; [|done].
    intros [= <-]; simpl. by rewrite (IH rows').
Qed.

Lemma closes_dates (df : Float64Frame) rows :
  closes df = Some rows -> map fst rows = map fst df.
Proof.
  revert rows; induction df as [|[d row] df IH]; intros rows.
  - by intros [= <-].
  - rewrite closes_cons. destruct (row !! "Close"); [|done].
    destruct (closes df) as [rows'|]; [|done].
    intros [= <-]; simpl. by rewrite (IH rows').
Qed.

Lemma closes_prices (df : Float64Frame) rows :
  closes df = Some rows -> map (Some ∘ snd) rows = map close df.
Proof.
  revert rows; induction df as [|[d row] df IH]; intros rows.
  - by intros [= <-].
  - rewrite closes_cons. destruct (row !! "Close") as [p|] eqn:Hp; [|done].
    destruct (closes df) as [rows'|]; [|done].
    intros [= <-]; simpl. rewrite (IH rows') by done.
    unfold close at 2; simpl. by rewrite Hp.
Qed.

Lemma valid_input_has_close (df : Float64Frame) (rc ii : float) :
  valid_input df rc ii = true -> has_close df = true.
Proof.
  unfold valid_input, has_close.
  intros [_ H]%andb_true_iff. rewrite forallb_forall in *.
  intros r Hr. specialize (H r Hr). unfold price_ok in H.
  apply bool_decide_eq_true. destruct (close r); [by eexists|done].
Qed.

Lemma valid_input_inv (df : Float64Frame) (rc ii : float) :
  valid_input df rc ii = true ->
  nonneg rc = true /\ nonneg ii = true /\ forallb price_ok df = true.
Proof.
  unfold valid_input.
  intros [[Hrc Hii]%andb_true_iff Hok]%andb_true_iff.
  split_and!; [by apply leb_zero_nonneg..|done].
Qed.

Lemma closes_positive_finite (df : Float64Frame) rows :
  closes df = Some rows ->
  forallb price_ok df = true -> forallb price_finite df = true ->
  Forall (fun r => positive_finite r.2 = true) rows.
Proof.
  revert rows; induction df as [|[d row] df IH]; intros rows.
  - by intros [= <-].
  - rewrite closes_cons. cbn [forallb]. unfold price_ok at 1, price_finite at 1.
    unfold close at 1 2; simpl.
    destruct (row !! "Close") as [p|]; [|done].
    destruct (closes df) as [rows'|]; [|done].
    intros [= <-] [Hp Hok]%andb_true_iff [Hf Hfin]%andb_true_iff.
    constructor; [by apply positive_price_spec|by apply IH].
Qed.

Lemma getitem_np_float64 (row : Float64Row) label :
  getitem (np_float64 <$> row) label =
  match row !! label with
  | Some p => Ok (np_float64 p)
  | None => Raise (KeyError label)
  end.
Proof.
  unfold getitem, Series.
  rewrite (lookup_fmap np_float64 row label).
  by destruct (row !! label).
Qed.

Lemma contribution_float (rc ii : float) i :
  contribution rc ii i = Ok (py_float (contribution_at rc ii i)).
Proof. unfold contribution, contribution_at. by destruct (Nat.eqb i 0). Qed.

(** On a float64 frame and with float amounts, the loop raises exactly when a
    row lacks its close; otherwise it appends [log_from] and ends in
    [totals_from]. *)
Lemma for_enumerate_trace (rc ii : float) i (df : Float64Frame) st :
  for_enumerate rc ii i (iterrows df) st =
  match closes df with
  | Some rows =>
      Ok {| total_invested :=
              (totals_from rc ii i (total_shares st) (total_invested st) rows).2;
            total_shares :=
              (totals_from rc ii i (total_shares st) (total_invested st) rows).1;
            dca_log := dca_log st ++
              log_from rc ii i (total_shares st) (total_invested st) rows |}
  | None => Raise (KeyError "Close")
  end.
Proof.
  revert i st; induction df as [|[d row] df IH]; intros i st.
  - simpl. destruct st; simpl. by rewrite app_nil_r.
  - rewrite closes_cons. cbn [iterrows map for_enumerate fst snd] in *.
    unfold loop_body. rewrite getitem_np_float64, contribution_float.
    destruct (row !! "Close") as [p|]; simpl; [|done].
    rewrite IH. destruct (closes df) as [rows|]; simpl; [|done].
    by rewrite <- app_assoc.
Qed.

Lemma calculate_dca_trace (df : Float64Frame) (rc ii : float) :
  calculate_dca df rc ii =
  match closes df with
  | Some rows =>
      Ok (log_from rc ii 0 0 0 rows,
          (totals_from rc ii 0 0 0 rows).1, (totals_from rc ii 0 0 0 rows).2)
  | None => Raise (KeyError "Close")
  end.
Proof.
  unfold calculate_dca. rewrite for_enumerate_trace.
  by destruct (closes df).
Qed.

(** * Shape of the log *)

Section Log.

Variables rc ii : float.

Lemma log_from_length i sh inv rows :
  length (log_from rc ii i sh inv rows) = length rows.
Proof.
  revert i sh inv; induction rows as [|[d p] rows IH]; intros; simpl; auto.
Qed.

Lemma log_from_dates i sh inv rows :
  map Date (log_from rc ii i sh inv rows) = map fst rows.
Proof.
  revert i sh inv; induction rows as [|[d p] rows IH]; intros; simpl;
    f_equal; auto.
Qed.

Lemma log_from_prices i sh inv rows :
  map Price (log_from rc ii i sh inv rows) = map snd rows.
Proof.
  revert i sh inv; induction rows as [|[d p] rows IH]; intros; simpl;
    f_equal; auto.
Qed.

Lemma log_from_value i sh inv rows :
  Forall (fun e => Portfolio_Value e = (Total_Shares e * Price e)%float)
    (log_from rc ii i sh inv rows).
Proof.
  revert i sh inv; induction rows as [|[d p] rows IH]; intros; simpl;
    constructor; auto.
Qed.

Lemma totals_from_last i sh inv rows :
  totals_from rc ii i sh inv rows =
  match last (log_from rc ii i sh inv rows) with
  | Some e => (Total_Shares e, Total_Investment e)
  | None => (sh, inv)
  end.
Proof.
  revert i sh inv; induction rows as [|[d p] rows IH]; intros; [done|].
  cbn [totals_from log_from]. rewrite IH, last_cons.
  by destruct (last _).
Qed.

(** From the second interval on, every interval adds [rc]. *)
Lemma log_from_invested_later i sh inv rows k e :
  log_from rc ii (S i) sh inv rows !! k = Some e ->
  Total_Investment e = Nat.iter (S k) (fun acc => (acc + rc)%float) inv.
Proof.
  revert i sh inv k; induction rows as [|[d p] rows IH]; intros i sh inv k;
    [done|].
  destruct k as [|k]; simpl.
  - by intros [= <-].
  - intros H. rewrite (IH _ _ _ _ H).
    change (contribution_at rc ii (S i)) with rc.
    by rewrite (Nat.iter_swap (S k) _ (fun acc => (acc + rc)%float)).
Qed.

Lemma log_from_invested rows k e :
  log_from rc ii 0 0 0 rows !! k = Some e ->
  Total_Investment e = invested_after rc ii k.
Proof.
  destruct rows as [|[d p] rows]; [done|].
  destruct k as [|k]; simpl.
  - by intros [= <-].
  - intros H. by rewrite (log_from_invested_later _ _ _ _ _ _ H).
Qed.

End Log.

(** Every entry's share total is the total before it plus a quotient by the
    entry's own price. *)
Lemma log_from_shares_step (rc ii : float) i sh inv rows k e :
  log_from rc ii i sh inv rows !! k = Some e ->
  exists before c, Total_Shares e = (before + c / Price e)%float.
Proof.
  revert i sh inv k; induction rows as [|[d p] rows IH]; intros i sh inv k;
    [done|].
  destruct k as [|k]; simpl.
  - intros [= <-]. by do 2 eexists.
  - apply IH.
Qed.

Lemma non_decreasing_tail x xs :
  non_decreasing (x :: xs) = true -> non_decreasing xs = true.
Proof. destruct xs as [|y xs]; [done|]. by intros [_ H]%andb_true_iff. Qed.

(** Started from a non-negative invested total, the invested totals of the
    log never step down, whatever the prices. *)
Lemma log_from_invested_non_decreasing (rc ii : float) i sh inv rows :
  nonneg rc = true -> nonneg ii = true -> nonneg inv = true ->
  non_decreasing (inv :: map Total_Investment (log_from rc ii i sh inv rows))
    = true.
Proof.
  intros Hrc Hii. revert i sh inv.
  induction rows as [|[d p] rows IH]; intros i sh inv Hinv; [done|].
  pose proof (contribution_nonneg rc ii i Hrc Hii) as Hc.
  cbn [log_from map Total_Investment].
  specialize (IH (S i) (sh + contribution_at rc ii i / p)%float
                (inv + contribution_at rc ii i)%float (add_nonneg _ _ Hinv Hc)).
  cbn [non_decreasing] in *. by rewrite IH, add_ge.
Qed.

(** With non-negative amounts and finite positive prices no portfolio value
    is a NaN, so that each compares equal to the product it was computed as. *)
Lemma log_from_value_eqb (rc ii : float) i sh inv rows :
  nonneg rc = true -> nonneg ii = true -> nonneg sh = true ->
  Forall (fun r => positive_finite r.2 = true) rows ->
  Forall (fun e =>
    (Portfolio_Value e =? Total_Shares e * Price e)%float = true)
    (log_from rc ii i sh inv rows).
Proof.
  intros Hrc Hii. revert i sh inv.
  induction rows as [|[d p] rows IH]; intros i sh inv Hsh Hrows;
    [constructor|].
  apply Forall_cons in Hrows as [Hp Hrows]. simpl in Hp.
  pose proof (contribution_nonneg rc ii i Hrc Hii) as Hc.
  pose proof (add_nonneg _ _ Hsh (div_nonneg _ _ Hc Hp)) as Hsh'.
  cbn [log_from]. constructor; [|by apply IH].
  cbn [Portfolio_Value Total_Shares Price].
  by apply eqb_refl, mul_nonneg.
Qed.

(** Whole amounts: the running sum and the closed form are the same whole
    number, as long as it stays below [2 ^ 53]. *)
Lemma invested_after_whole a b i :
  (0 <= a)%Z -> (0 <= b)%Z -> (a * (Z.of_nat i + 1) + b < 2 ^ 53)%Z ->
  invested_after (float_of_Z a) (float_of_Z b) i
  = float_of_Z (a * (Z.of_nat i + 1) + b).
Proof.
  intros Ha Hb. unfold invested_after.
  induction i as [|i IH]; intros Hi.
  - cbn [Nat.iter]. change 0%float with (float_of_Z 0).
    rewrite !add_whole by lia. apply (f_equal float_of_Z). lia.
  - assert (a * (Z.of_nat (S i) + 1) + b = a * (Z.of_nat i + 1) + b + a)%Z
      as Hstep by lia.
    assert (0 <= a * (Z.of_nat i + 1))%Z by (apply Z.mul_nonneg_nonneg; lia).
    rewrite Nat.iter_succ, IH by lia. rewrite add_whole by lia.
    by rewrite Hstep.
Qed.

Lemma conservation_whole a b i :
  (0 <= a)%Z -> (0 <= b)%Z ->
  (Z.of_nat i + 1 < 2 ^ 53)%Z -> (a * (Z.of_nat i + 1) + b < 2 ^ 53)%Z ->
  (float_of_Z a * float_of_nat (i + 1) + float_of_Z b)%float
  = float_of_Z (a * (Z.of_nat i + 1) + b).
Proof.
  intros Ha Hb Hi Hab. unfold float_of_nat.
  replace (Z.of_nat (i + 1)) with (Z.of_nat i + 1)%Z by lia.
  assert (0 <= a * (Z.of_nat i + 1))%Z by (apply Z.mul_nonneg_nonneg; lia).
  assert (a < 2 ^ 53)%Z by nia.
  by rewrite mul_whole, add_whole by lia.
Qed.

(** * Totals that never step down *)

Section OrderFacts.
Import Binary64 Binary64Facts.

Lemma SFcompare_antisym x y : SFcompare y x = CompOpp <$> SFcompare x y.
Proof.
  destruct x as [sx|sx| |sx mx ex], y as [sy|sy| |sy my ey]; try done;
    try (by destruct sx); try (by destruct sy); try (by destruct sx, sy).
  cbn [SFcompare].
  pose proof (Pos.compare_cont_antisym mx my Eq) as Hm. cbn [CompOpp] in Hm.
  destruct sx, sy; cbn [fmap option_fmap option_map];
    try done; f_equal; rewrite (Z.compare_antisym ex ey);
    destruct (ex ?= ey)%Z; cbn [CompOpp]; try done.
  all: first [by rewrite <- Hm, CompOpp_involutive | by rewrite <- Hm].
Qed.

Lemma SFleb_not_ltb x y : SFleb x y = true -> SFltb y x = false.
Proof.
  unfold SFleb, SFltb. rewrite (SFcompare_antisym x y).
  by destruct (SFcompare x y) as [[]|].
Qed.

Lemma SFnonneg_or_nan_nonneg s :
  SFnonneg s = true -> SFnonneg_or_nan s = true.
Proof. by destruct s. Qed.

Lemma nonneg_or_nan_nonneg x : nonneg x = true -> nonneg_or_nan x = true.
Proof. unfold nonneg, nonneg_or_nan. by destruct (Prim2SF x). Qed.

Lemma add_nonneg_or_nan x y :
  nonneg_or_nan x = true -> nonneg_or_nan y = true ->
  nonneg_or_nan (x + y) = true.
Proof.
  unfold nonneg_or_nan. rewrite FloatAxioms.add_spec.
  pose proof (SFadd_nonneg (Prim2SF x) (Prim2SF y)) as H.
  destruct (Prim2SF x) as [sx|sx| |sx mx ex] eqn:Hx,
    (Prim2SF y) as [sy|sy| |sy my ey] eqn:Hy; intros Hnx Hny;
    try done; try (by destruct sx); try (by destruct sy);
    by apply SFnonneg_or_nan_nonneg, H.
Qed.

(** A quotient of a non-negative value by a price above zero is not below
    zero; it is a NaN only for an infinity over an infinity. *)
Lemma div_nonneg_or_nan c p :
  nonneg c = true -> (0 <? p)%float = true -> nonneg_or_nan (c / p) = true.
Proof.
  unfold nonneg, nonneg_or_nan.
  rewrite FloatAxioms.ltb_spec, FloatAxioms.div_spec.
  change (Prim2SF 0) with (S754_zero false).
  destruct (Prim2SF p) as [sp|[]| |[] mp ep]; try done; intros Hc _.
  - by destruct (Prim2SF c) as [[]|[]| |[] mc ec].
  - by apply SFnonneg_or_nan_nonneg, SFdiv_nonneg.
Qed.

Lemma div_nonneg_finite c p :
  nonneg c = true -> (0 <? p)%float = true ->
  is_finite p || is_finite c = true -> nonneg (c / p) = true.
Proof.
  intros Hc Hp Hfin.
  destruct (is_finite p) eqn:Hfp.
  - by apply div_nonneg, positive_price_spec.
  - simpl in Hfin. apply is_finite_spec in Hfin. revert Hc Hp Hfin.
    unfold nonneg.
    rewrite FloatAxioms.ltb_spec, FloatAxioms.div_spec.
    change (Prim2SF 0) with (S754_zero false).
    destruct (Prim2SF p) as [sp|[]| |[] mp ep]; try done.
    + by destruct (Prim2SF c) as [[]|[]| |[] mc ec].
    + intros Hc _ _. by apply SFdiv_nonneg.
Qed.

Lemma add_never_lower x y :
  nonneg_or_nan x = true -> nonneg_or_nan y = true ->
  (x + y <? x)%float = false.
Proof.
  unfold nonneg_or_nan.
  rewrite FloatAxioms.ltb_spec, FloatAxioms.add_spec.
  pose proof (SFadd_ge (Prim2SF x) (Prim2SF y)
                (Prim2SF_valid x) (Prim2SF_valid y)) as H.
  destruct (Prim2SF x) as [sx|sx| |sx mx ex] eqn:Hx,
    (Prim2SF y) as [sy|sy| |sy my ey] eqn:Hy; intros Hnx Hny;
    try done; try (by destruct sx); try (by destruct sy);
    by apply SFleb_not_ltb, H.
Qed.

Lemma leb_not_ltb x y : (x <=? y)%float = true -> (y <? x)%float = false.
Proof.
  rewrite FloatAxioms.leb_spec, FloatAxioms.ltb_spec. apply SFleb_not_ltb.
Qed.

End OrderFacts.

Lemma non_decreasing_never_lower xs :
  non_decreasing xs = true -> never_lower xs = true.
Proof.
  induction xs as [|x xs IH]; [done|]. destruct xs as [|y xs]; [done|].
  change (non_decreasing (x :: y :: xs))
    with ((x <=? y)%float && non_decreasing (y :: xs)).
  change (never_lower (x :: y :: xs))
    with (negb (y <? x)%float && never_lower (y :: xs)).
  intros [Hxy Hxs]%andb_true_iff.
  by rewrite (leb_not_ltb _ _ Hxy), (IH Hxs).
Qed.

Lemma never_lower_tail x xs :
  never_lower (x :: xs) = true -> never_lower xs = true.
Proof. destruct xs as [|y xs]; [done|]. by intros [_ H]%andb_true_iff. Qed.

Lemma closes_positive (df : Float64Frame) rows :
  closes df = Some rows -> forallb price_ok df = true ->
  Forall (fun r => (0 <? r.2)%float = true) rows.
Proof.
  revert rows; induction df as [|[d row] df IH]; intros rows.
  - by intros [= <-].
  - rewrite closes_cons. cbn [forallb]. unfold price_ok at 1, close at 1.
    simpl. destruct (row !! "Close") as [p|]; [|done].
    destruct (closes df) as [rows'|]; [|done].
    intros [= <-] [Hp Hok]%andb_true_iff.
    constructor; [done|by apply IH].
Qed.

(** With non-negative amounts and prices above zero, the share totals never
    step down, infinite prices and amounts included. *)
Lemma log_from_shares_never_lower (rc ii : float) i sh inv rows :
  nonneg rc = true -> nonneg ii = true -> nonneg_or_nan sh = true ->
  Forall (fun r => (0 <? r.2)%float = true) rows ->
  never_lower (sh :: map Total_Shares (log_from rc ii i sh inv rows)) = true.
Proof.
  intros Hrc Hii. revert i sh inv.
  induction rows as [|[d p] rows IH]; intros i sh inv Hsh Hrows; [done|].
  apply Forall_cons in Hrows as [Hp Hrows]. simpl in Hp.
  pose proof (contribution_nonneg rc ii i Hrc Hii) as Hc.
  pose proof (div_nonneg_or_nan _ _ Hc Hp) as Hq.
  cbn [log_from map Total_Shares].
  specialize (IH (S i) (sh + contribution_at rc ii i / p)%float
                (inv + contribution_at rc ii i)%float
                (add_nonneg_or_nan _ _ Hsh Hq) Hrows).
  cbn [never_lower] in *. by rewrite IH, add_never_lower.
Qed.

(** When no infinite contribution meets an infinite price, every quotient is
    a number and the share totals are non-decreasing under [<=]. *)
Lemma log_from_shares_leb (rc ii : float) i sh inv (df : Float64Frame) rows :
  nonneg rc = true -> nonneg ii = true -> nonneg sh = true ->
  closes df = Some rows -> forallb price_ok df = true ->
  no_inf_over_inf rc ii i df = true ->
  non_decreasing (sh :: map Total_Shares (log_from rc ii i sh inv rows))
    = true.
Proof.
  intros Hrc Hii. revert i sh inv rows.
  induction df as [|[d row] df IH]; intros i sh inv rows Hsh.
  - by intros [= <-].
  - rewrite closes_cons. cbn [forallb no_inf_over_inf].
    unfold price_ok at 1, price_finite at 1, close at 1 2. simpl.
    destruct (row !! "Close") as [p|]; [|done].
    destruct (closes df) as [rows'|] eqn:Hrows'; [|done].
    intros [= <-] [Hp Hok]%andb_true_iff [Hfin Hno]%andb_true_iff.
    pose proof (contribution_nonneg rc ii i Hrc Hii) as Hc.
    pose proof (div_nonneg_finite _ _ Hc Hp Hfin) as Hq.
    cbn [log_from map Total_Shares].
    specialize (IH (S i) (sh + contribution_at rc ii i / p)%float
                  (inv + contribution_at rc ii i)%float rows'
                  (add_nonneg _ _ Hsh Hq) eq_refl Hok Hno).
    cbn [non_decreasing] in *. by rewrite IH, add_ge.
Qed.

Lemma finite_prices_no_inf_over_inf (rc ii : float) i (df : Float64Frame) :
  finite_prices df = true -> no_inf_over_inf rc ii i df = true.
Proof.
  unfold finite_prices. revert i.
  induction df as [|r df IH]; intros i; [done|].
  cbn [forallb no_inf_over_inf]. intros [-> H]%andb_true_iff.
  by rewrite IH.
Qed.

(** * Frames of either kind, amounts of either kind *)

Lemma prices_cons d (row : Series) rows :
  mapM (fun r => pair r.1 <$> price r) ((d, row) :: rows) =
  match row !! "Close" ≫= price_of with
  | Some p => cons (d, p) <$> mapM (fun r => pair r.1 <$> price r) rows
  | None => None
  end.
Proof.
  unfold price, close_cell; simpl.
  destruct (row !! "Close" ≫= price_of); simpl; [|done].
  by destruct (mapM _ rows).
Qed.

Lemma priced_prices (df : DataFrame) :
  priced df = true ->
  exists ps, prices df = Some ps /\ length ps = length (iterrows df).
Proof.
  unfold priced, prices. induction (iterrows df) as [|[d row] rows IH].
  - by exists [].
  - cbn [forallb]. intros [Hr Hrows]%andb_true_iff.
    apply bool_decide_eq_true in Hr as [p Hp].
    destruct (IH Hrows) as (ps & Hps & Hlen).
    rewrite prices_cons. unfold price, close_cell in Hp; simpl in Hp.
    rewrite Hp, Hps. exists ((d, p) :: ps). split; [done|]. simpl.
    by rewrite Hlen.
Qed.

(** With float amounts, on rows that all have a float close, the loop raises
    exactly when a Python float equal to zero is divided by; otherwise it
    appends [log_from] and ends in [totals_from], whatever the class of the
    closes. *)
Lemma for_enumerate_prices (rc ii : float) i rows st ps :
  mapM (fun r => pair r.1 <$> price r) rows = Some ps ->
  for_enumerate rc ii i rows st =
  if existsb zero_divisor rows then Raise ZeroDivisionError
  else
    Ok {| total_invested :=
            (totals_from rc ii i (total_shares st) (total_invested st) ps).2;
          total_shares :=
            (totals_from rc ii i (total_shares st) (total_invested st) ps).1;
          dca_log := dca_log st ++
            log_from rc ii i (total_shares st) (total_invested st) ps |}.
Proof.
  revert i st ps; induction rows as [|[d row] rows IH]; intros i st ps.
  - intros [= <-]. simpl. destruct st; simpl. by rewrite app_nil_r.
  - rewrite prices_cons. cbn [existsb for_enumerate].
    unfold zero_divisor at 1, close_cell at 1, loop_body, getitem.
    cbn [snd]. rewrite contribution_float.
    destruct (row !! "Close") as [[p|p|s]|]; cbn [mbind option_bind price_of];
      [| |done..].
    + destruct (mapM _ rows) as [ps'|] eqn:Hps; [|done].
      intros [= <-]. cbn [mbind result_bind truediv as_float mul float64_of].
      rewrite (IH _ _ ps' eq_refl). cbn [orb].
      destruct (existsb zero_divisor rows); [done|].
      cbn [total_invested total_shares dca_log log_from totals_from].
      by rewrite <- app_assoc.
    + destruct (mapM _ rows) as [ps'|] eqn:Hps; [|done].
      intros [= <-]. cbn [mbind result_bind truediv as_float mul float64_of].
      destruct (p =? 0)%float; [done|].
      cbn [mbind result_bind]. rewrite (IH _ _ ps' eq_refl). cbn [orb].
      destruct (existsb zero_divisor rows); [done|].
      cbn [total_invested total_shares dca_log log_from totals_from].
      by rewrite <- app_assoc.
Qed.

Lemma calculate_dca_prices (df : DataFrame) (rc ii : float) ps :
  prices df = Some ps ->
  calculate_dca df rc ii =
  if zero_division df then Raise ZeroDivisionError
  else Ok (log_from rc ii 0 0 0 ps,
           (totals_from rc ii 0 0 0 ps).1, (totals_from rc ii 0 0 0 ps).2).
Proof.
  intros Hps. unfold calculate_dca, zero_division.
  rewrite (for_enumerate_prices _ _ _ _ _ _ Hps).
  by destruct (existsb zero_divisor (iterrows df)).
Qed.

(** The body of the loop reads a row through its close only, and the close
    through its value, except at zero, where the class decides. *)
Lemma loop_body_ext (a b : number) i d (row1 row2 : Series) st :
  value_of <$> row1 !! "Close" = value_of <$> row2 !! "Close" ->
  match row1 !! "Close" ≫= price_of with
  | Some p => (p =? 0)%float = false
  | None => True
  end \/ row1 !! "Close" = row2 !! "Close" ->
  loop_body a b i d row1 st = loop_body a b i d row2 st.
Proof.
  intros Hv Hc. unfold loop_body, getitem.
  destruct Hc as [Hnz| ->]; [|done].
  destruct (row1 !! "Close") as [v1|], (row2 !! "Close") as [v2|];
    try done.
  cbn [mbind result_bind]. destruct (contribution a b i) as [c|]; [|done].
  cbn [mbind result_bind option_bind] in *.
  destruct v1 as [x1|x1|s1], v2 as [x2|x2|s2]; try done;
    injection Hv as <-; cbn [price_of truediv mul float64_of] in *;
    try done; rewrite Hnz; done.
Qed.

Lemma for_enumerate_ext (a b : number) i rows1 rows2 st :
  map fst rows1 = map fst rows2 ->
  map close_value rows1 = map close_value rows2 ->
  existsb (fun r => match price r with
                    | Some p => (p =? 0)%float
                    | None => false
                    end) rows1 = false
  \/ map close_cell rows1 = map close_cell rows2 ->
  for_enumerate a b i rows1 st = for_enumerate a b i rows2 st.
Proof.
  revert rows2 i st.
  induction rows1 as [|[d1 row1] rows1 IH]; intros [|[d2 row2] rows2] i st;
    try done.
  cbn [map fst for_enumerate]. intros [= -> Hd] [= Hv Hvs] Hc.
  unfold close_value, close_cell in Hv; simpl in Hv.
  rewrite (loop_body_ext a b i d2 row1 row2 st Hv).
  - destruct (loop_body a b i d2 row2 st) as [st'|]; [|done].
    cbn [mbind result_bind]. apply IH; [done..|].
    destruct Hc as [Hc|Hc]; [left|right].
    + cbn [existsb] in Hc. by apply orb_false_iff in Hc as [_ ?].
    + by injection Hc.
  - destruct Hc as [Hc|Hc]; [left|right].
    + cbn [existsb] in Hc. apply orb_false_iff in Hc as [Hc _].
      unfold price, close_cell in Hc; simpl in Hc.
      by destruct (row1 !! "Close" ≫= price_of).
    + by injection Hc.
Qed.

(** A whole number below [2 ^ 53] converts to its float without rounding. *)
Lemma float_of_int_whole n :
  (0 <= n < 2 ^ 53)%Z -> float_of_int n = Ok (float_of_Z n).
Proof.
  intros Hn. pose proof (Prim2SF_float_of_Z n Hn) as Hsf.
  unfold float_of_int.
  change (binary_normalize prec emax n 0 false) with (Binary64.SFofZ n).
  destruct n as [|N|N]; [done| |lia].
  assert (Z.pos (digits2_pos N) <= 53)%Z as Hd.
  { pose proof (Binary64Facts.digits2_bounds N) as Hd.
    destruct (Z_le_gt_dec (Z.pos (digits2_pos N)) 53) as [|Hgt]; [done|].
    assert (2 ^ 53 <= 2 ^ (Z.pos (digits2_pos N) - 1))%Z
      by (apply Z.pow_le_mono_r; lia).
    lia. }
  rewrite (Binary64Facts.SFofZ_pos N Hd) in *.
  by rewrite <- Hsf, SF2Prim_Prim2SF.
Qed.

(** The body of the loop uses a contribution through its float value. *)
Lemma loop_body_whole n m i d (row : Series) st :
  (0 <= n)%Z -> (0 <= m)%Z -> (n + m < 2 ^ 53)%Z ->
  loop_body (py_int n) (py_int m) i d row st =
  loop_body (float_of_Z n) (float_of_Z m) i d row st.
Proof.
  intros Hn Hm Hnm. unfold loop_body, contribution; cbn [add].
  destruct (getitem row "Close") as [v|]; [|done].
  cbn [mbind result_bind as_float].
  destruct (Nat.eqb i 0); cbn [mbind result_bind].
  - rewrite (add_whole n m Hn Hm Hnm).
    destruct v; cbn [truediv as_float]; try done;
      by rewrite (float_of_int_whole (n + m)) by lia.
  - destruct v; cbn [truediv as_float]; try done;
      by rewrite (float_of_int_whole n) by lia.
Qed.

Lemma for_enumerate_whole n m i rows st :
  (0 <= n)%Z -> (0 <= m)%Z -> (n + m < 2 ^ 53)%Z ->
  for_enumerate (py_int n) (py_int m) i rows st =
  for_enumerate (float_of_Z n) (float_of_Z m) i rows st.
Proof.
  intros Hn Hm Hnm. revert i st.
  induction rows as [|[d row] rows IH]; intros i st; [done|].
  cbn [for_enumerate]. rewrite loop_body_whole by done.
  destruct (loop_body _ _ i d row st); [|done].
  cbn [mbind result_bind]. apply IH.
Qed.

(** * The claims *)

(** ** The reference scenario *)

(** C1: closes 10, 20, 40 on three successive days with a regular
    contribution of 100 and an initial investment of 50: the call returns
    22.5 shares and 350 invested; the log holds 15 shares / 150 invested after
    interval 0, 20 / 250 after interval 1 and 22.5 / 350 in its last entry. *)
Theorem basic_scenario (day : Timestamp) :
  calculate_dca (basic_prices day) 100 50 =
    Ok ([ mkEntry day 10 15 150 150;
          mkEntry (day + 1)%Z 20 20 250 400;
          mkEntry (day + 2)%Z 40 22.5 350 900 ], 22.5%float, 350%float).
Proof. reflexivity. Qed.

(** ** Conservation *)

(** C2, as worded, fails: in the reference scenario the second entry has 250
    invested, the closed form gives 100 * 2 + 0 = 200. *)
Lemma conservation_formula_fails :
  valid_input (basic_prices 0) 100 50 = true /\
  exists ledger sh inv e,
    calculate_dca (basic_prices 0) 100 50 = Ok (ledger, sh, inv) /\
    ledger !! 1%nat = Some e /\
    Total_Investment e = 250%float /\
    conservation_formula 100 50 1 = 200%float /\
    Total_Investment e <> conservation_formula 100 50 1.
Proof.
  split; [reflexivity|].
  do 4 eexists. split; [reflexivity|]. split; [reflexivity|].
  split; [reflexivity|]. split; [reflexivity|].
  by apply float_neq.
Qed.

(** The closed form also fails without any initial investment, by rounding:
    ten contributions of a tenth add up to just below 1, the product is 1. *)
Example rounding_breaks_the_closed_form :
  valid_input ten_days tenth 0 = true /\
  exists ledger sh inv e,
    calculate_dca ten_days tenth 0 = Ok (ledger, sh, inv) /\
    ledger !! 9%nat = Some e /\
    Total_Investment e = 0x1.fffffffffffffp-1%float /\
    conservation_formula tenth 0 9 = 1%float.
Proof.
  split; [by vm_compute|].
  do 4 eexists. split; [by vm_compute|]. split; [reflexivity|].
  split; by vm_compute.
Qed.

(** C2, amended: on a valid input, entry [i] holds the running float sum of
    the contributions: [rc + ii] for interval 0 and [rc] for each of the [i]
    later intervals, added in this order from 0.0.  When the two amounts are
    whole numbers and the count [i + 1] and the total [rc * (i + 1) + ii] are
    below [2 ^ 53], no operation rounds and the entry holds
    [rc * (i + 1) + ii]: the initial investment stays in every total. *)
Theorem invested_is_running_sum (df : Float64Frame) (rc ii : float) :
  valid_input df rc ii = true ->
  exists ledger sh inv,
    calculate_dca df rc ii = Ok (ledger, sh, inv) /\
    forall i e, ledger !! i = Some e ->
      Total_Investment e = invested_after rc ii i /\
      forall a b : Z,
        rc = float_of_Z a -> ii = float_of_Z b ->
        (0 <= a)%Z -> (0 <= b)%Z ->
        (Z.of_nat i + 1 < 2 ^ 53)%Z ->
        (a * (Z.of_nat i + 1) + b < 2 ^ 53)%Z ->
        Total_Investment e = (rc * float_of_nat (i + 1) + ii)%float.
Proof.
  intros [rows Hrows]%valid_input_has_close%has_close_closes.
  rewrite calculate_dca_trace, Hrows. do 3 eexists. split; [done|].
  intros i e He. apply log_from_invested in He. split; [done|].
  intros a b -> -> Ha Hb Hi Hab.
  by rewrite He, invested_after_whole, conservation_whole.
Qed.

Lemma invested_is_running_sum_witness :
  exists ledger sh inv,
    calculate_dca (basic_prices 0) 100 50 = Ok (ledger, sh, inv) /\
    forall i e, ledger !! i = Some e ->
      Total_Investment e = invested_after 100 50 i /\
      forall a b : Z,
        100%float = float_of_Z a -> 50%float = float_of_Z b ->
        (0 <= a)%Z -> (0 <= b)%Z ->
        (Z.of_nat i + 1 < 2 ^ 53)%Z ->
        (a * (Z.of_nat i + 1) + b < 2 ^ 53)%Z ->
        Total_Investment e = (100 * float_of_nat (i + 1) + 50)%float.
Proof.
  apply (invested_is_running_sum (basic_prices 0) 100 50). reflexivity.
Defined.

(** In the reference scenario the amounts are the whole numbers 100 and 50,
    and the three entries hold 100 * 1 + 50, 100 * 2 + 50 and 100 * 3 + 50. *)
Example reference_closed_form :
  100%float = float_of_Z 100 /\ 50%float = float_of_Z 50 /\
  map (fun i => (100 * float_of_nat (i + 1) + 50)%float) [0; 1; 2]%nat
  = [150; 250; 350]%float.
Proof. split_and!; reflexivity. Qed.

(** ** Prices and amounts the call does not check *)

(** C3, as worded, fails: a close of 0 is divided by; the call returns a log
    whose share total is infinite and whose portfolio value is NaN. *)
Lemma zero_price_returns_a_ledger :
  nonpositive_price zero_price = true /\
  calculate_dca zero_price 100 0 =
    Ok ([ mkEntry 0 0 infinity 100 nan ], infinity, 100%float).
Proof. split; reflexivity. Qed.

(** C3, amended: no price is checked, and there is no failure of the call's
    own for a price [<= 0].  With float amounts, on a frame with such a price
    whose rows all have a float close, the call returns a log with one entry
    per row, in which every entry at a price equal to zero records a share
    total that is an infinity or a NaN.  The one case in which nothing is
    returned is that of a Python float equal to zero among the closes, which
    a frame of dtype object hands out: there the division raises Python's
    [ZeroDivisionError].  A negative price never stops the call. *)
Theorem nonpositive_price_not_rejected (df : DataFrame) (rc ii : float) :
  priced df = true ->
  nonpositive df = true ->
  if zero_division df
  then calculate_dca df rc ii = Raise ZeroDivisionError
  else exists ledger sh inv,
         calculate_dca df rc ii = Ok (ledger, sh, inv) /\
         length ledger = length (iterrows df) /\
         forall i e, ledger !! i = Some e -> (Price e =? 0)%float = true ->
           is_finite (Total_Shares e) = false.
Proof.
  intros (ps & Hps & Hlen)%priced_prices _.
  rewrite (calculate_dca_prices df rc ii ps Hps).
  destruct (zero_division df); [done|].
  do 3 eexists. split; [done|].
  split; [by rewrite log_from_length|].
  intros i e (before & c & ->)%log_from_shares_step.
  apply add_div_zero_not_finite.
Qed.

Lemma nonpositive_price_not_rejected_witness :
  calculate_dca noted_zero_then_ten 100 0 = Raise ZeroDivisionError.
Proof.
  apply (nonpositive_price_not_rejected noted_zero_then_ten 100 0);
    reflexivity.
Defined.

(** The same prices on a float64 frame and on a frame of dtype object: a
    negative price goes through on both, a zero price on the first only. *)
Example negative_price_on_an_object_frame :
  calculate_dca noted_negative 100 0 =
    Ok ([ mkEntry 0 (-10) (-10) 100 100; mkEntry 1 20 (-5) 200 (-100) ],
        (-5)%float, 200%float).
Proof. reflexivity. Qed.

(** C4, as worded, fails: a regular contribution of -100 is accepted and the
    call returns a log of negative totals. *)
Lemma negative_amount_returns_a_ledger :
  (-100 <? 0)%float = true /\
  calculate_dca (basic_prices 0) (-100) 0 =
    Ok ([ mkEntry 0 10 (-10) (-100) (-100);
          mkEntry 1 20 (-15) (-200) (-300);
          mkEntry 2 40 (-17.5) (-300) (-700) ], (-17.5)%float, (-300)%float).
Proof. split; reflexivity. Qed.

(** C4, amended: the two amounts are not checked, at the entry point or
    later.  With float amounts of which one is negative, on a frame whose
    rows all have a float close, the call returns a log with one entry per
    row; what can stop it is not the sign of an amount but, as for any
    amounts, a Python float equal to zero among the closes, at which the
    division raises [ZeroDivisionError]. *)
Theorem negative_amount_not_rejected (df : DataFrame) (rc ii : float) :
  (rc <? 0)%float = true \/ (ii <? 0)%float = true ->
  priced df = true ->
  if zero_division df
  then calculate_dca df rc ii = Raise ZeroDivisionError
  else exists ledger sh inv,
         calculate_dca df rc ii = Ok (ledger, sh, inv) /\
         length ledger = length (iterrows df).
Proof.
  intros _ (ps & Hps & Hlen)%priced_prices.
  rewrite (calculate_dca_prices df rc ii ps Hps).
  destruct (zero_division df); [done|].
  do 3 eexists. split; [done|]. by rewrite log_from_length.
Qed.

Lemma negative_amount_not_rejected_witness :
  exists ledger sh inv,
    calculate_dca noted_frame (-100) 0 = Ok (ledger, sh, inv) /\
    length ledger = length (iterrows noted_frame).
Proof.
  apply (negative_amount_not_rejected noted_frame (-100) 0);
    [left|]; reflexivity.
Defined.

(** An int amount is converted where it meets a float, and beyond the float
    range the conversion raises: no check of the call's own either. *)
Example int_beyond_the_float_range :
  calculate_dca (basic_prices 0) (py_int (- 10 ^ 400)) (py_int 0)
    = Raise OverflowError.
Proof. by vm_compute. Qed.

(** ** Monotonicity *)

(** An infinite amount at an infinite price passes the two comparisons of a
    valid input; the quotient is a NaN, which compares with nothing: the
    share totals do not step down, and are not [<=] one another either. *)
Example nan_totals_compare_with_nothing :
  valid_input infinite_prices infinity 0 = true /\
  exists ledger sh inv,
    calculate_dca infinite_prices infinity 0 = Ok (ledger, sh, inv) /\
    map Total_Shares ledger = [nan; nan] /\
    never_lower (map Total_Shares ledger) = true /\
    non_decreasing (map Total_Shares ledger) = false.
Proof. split; [reflexivity|]. do 3 eexists. split_and!; reflexivity. Qed.

(** C5: on a valid input the invested totals and the share totals of the log
    are non-decreasing: no entry is below the entry before it.  For the
    invested totals each entry also compares [<=] with the next; so it does
    for the share totals whenever no infinite contribution meets an infinite
    price, which is the one way a share total becomes a NaN. *)
Theorem totals_non_decreasing (df : Float64Frame) (rc ii : float) :
  valid_input df rc ii = true ->
  exists ledger sh inv,
    calculate_dca df rc ii = Ok (ledger, sh, inv) /\
    never_lower (map Total_Investment ledger) = true /\
    never_lower (map Total_Shares ledger) = true /\
    non_decreasing (map Total_Investment ledger) = true /\
    (no_inf_over_inf rc ii 0 df = true ->
     non_decreasing (map Total_Shares ledger) = true).
Proof.
  intros Hvalid.
  destruct (has_close_closes df (valid_input_has_close _ _ _ Hvalid))
    as [rows Hrows].
  rewrite calculate_dca_trace, Hrows. do 3 eexists. split; [done|].
  apply valid_input_inv in Hvalid as (Hrc & Hii & Hok).
  assert (non_decreasing
            (map Total_Investment (log_from rc ii 0 0 0 rows)) = true) as Hinv.
  { apply (non_decreasing_tail 0).
    by apply log_from_invested_non_decreasing. }
  split_and!; [by apply non_decreasing_never_lower| |done|].
  - apply (never_lower_tail 0).
    apply log_from_shares_never_lower; [done..|].
    by apply (closes_positive df).
  - intros Hno. apply (non_decreasing_tail 0).
    by apply (log_from_shares_leb rc ii 0 0 0 df).
Qed.

Lemma totals_non_decreasing_witness :
  exists ledger sh inv,
    calculate_dca (basic_prices 0) 100 50 = Ok (ledger, sh, inv) /\
    never_lower (map Total_Investment ledger) = true /\
    never_lower (map Total_Shares ledger) = true /\
    non_decreasing (map Total_Investment ledger) = true /\
    (no_inf_over_inf 100 50 0 (basic_prices 0) = true ->
     non_decreasing (map Total_Shares ledger) = true).
Proof.
  apply (totals_non_decreasing (basic_prices 0) 100 50); reflexivity.
Defined.

(** Finite prices are one case of it, finite amounts at any prices
    another. *)
Example infinite_price_between_finite_ones :
  finite_prices pause_at_infinity = false /\
  no_inf_over_inf 100 50 0 pause_at_infinity = true /\
  exists ledger sh inv,
    calculate_dca pause_at_infinity 100 50 = Ok (ledger, sh, inv) /\
    map Total_Shares ledger = [15; 15; 20]%float.
Proof. split_and!; [reflexivity..|]. do 3 eexists. split; reflexivity. Qed.

(** ** Length, order and the totals *)

(** C6: on a valid input the log has one entry per row, with the dates and the
    closes of the rows in their order; on the empty frame the call returns the
    empty log and the totals 0 and 0, and raises nothing. *)
Theorem one_entry_per_interval (df : Float64Frame) (rc ii : float) :
  valid_input df rc ii = true ->
  exists ledger sh inv,
    calculate_dca df rc ii = Ok (ledger, sh, inv) /\
    length ledger = length df /\
    map Date ledger = map fst df /\
    map (Some ∘ Price) ledger = map close df /\
    (df = [] -> ledger = [] /\ sh = 0%float /\ inv = 0%float).
Proof.
  intros [rows Hrows]%valid_input_has_close%has_close_closes.
  rewrite calculate_dca_trace, Hrows. do 3 eexists. split; [done|].
  split_and!.
  - by rewrite log_from_length, (closes_length _ _ Hrows).
  - by rewrite log_from_dates, (closes_dates _ _ Hrows).
  - rewrite <- (closes_prices _ _ Hrows).
    transitivity (map Some (map Price (log_from rc ii 0 0 0 rows)));
      [by rewrite map_map|].
    by rewrite log_from_prices, map_map.
  - intros ->. by injection Hrows as <-.
Qed.

Lemma one_entry_per_interval_witness :
  exists ledger sh inv,
    calculate_dca (basic_prices 0) 100 50 = Ok (ledger, sh, inv) /\
    length ledger = length (basic_prices 0) /\
    map Date ledger = map fst (basic_prices 0) /\
    map (Some ∘ Price) ledger = map close (basic_prices 0) /\
    (basic_prices 0 = [] -> ledger = [] /\ sh = 0%float /\ inv = 0%float).
Proof.
  apply (one_entry_per_interval (basic_prices 0) 100 50). reflexivity.
Defined.

(** The empty frame itself, whatever the amounts. *)
Example empty_frame (rc ii : float) :
  calculate_dca [] rc ii = Ok ([], 0%float, 0%float).
Proof. reflexivity. Qed.

(** C7: on a valid input, every entry's portfolio value is the float product
    of its own share total and its own price: the same binary64 value.  When
    the prices are finite the two also compare equal with [==], no value
    being a NaN. *)
Theorem portfolio_value_identity (df : Float64Frame) (rc ii : float) :
  valid_input df rc ii = true ->
  exists ledger sh inv,
    calculate_dca df rc ii = Ok (ledger, sh, inv) /\
    (forall i e, ledger !! i = Some e ->
       Portfolio_Value e = (Total_Shares e * Price e)%float) /\
    (finite_prices df = true ->
     forall i e, ledger !! i = Some e ->
       (Portfolio_Value e =? Total_Shares e * Price e)%float = true).
Proof.
  intros Hvalid.
  destruct (has_close_closes df (valid_input_has_close _ _ _ Hvalid))
    as [rows Hrows].
  rewrite calculate_dca_trace, Hrows. do 3 eexists. split; [done|].
  apply valid_input_inv in Hvalid as (Hrc & Hii & Hok). split.
  - intros i e He.
    by apply (Forall_lookup_1 _ _ _ _ (log_from_value rc ii 0 0 0 rows) He).
  - intros Hfin i e He.
    pose proof (closes_positive_finite df rows Hrows Hok Hfin) as Hrows'.
    by apply (Forall_lookup_1 _ _ _ _
      (log_from_value_eqb rc ii 0 0 0 rows Hrc Hii eq_refl Hrows') He).
Qed.

Lemma portfolio_value_identity_witness :
  exists ledger sh inv,
    calculate_dca (basic_prices 0) 100 50 = Ok (ledger, sh, inv) /\
    (forall i e, ledger !! i = Some e ->
       Portfolio_Value e = (Total_Shares e * Price e)%float) /\
    (finite_prices (basic_prices 0) = true ->
     forall i e, ledger !! i = Some e ->
       (Portfolio_Value e =? Total_Shares e * Price e)%float = true).
Proof.
  apply (portfolio_value_identity (basic_prices 0) 100 50). reflexivity.
Defined.

(** C8: on a valid input the two returned totals are the share total and the
    invested total of the last entry of the log; the log has no last entry
    exactly when the frame is empty, and then both totals are 0. *)
Theorem totals_match_last_entry (df : Float64Frame) (rc ii : float) :
  valid_input df rc ii = true ->
  exists ledger sh inv,
    calculate_dca df rc ii = Ok (ledger, sh, inv) /\
    match last ledger with
    | Some e => df <> [] /\ sh = Total_Shares e /\ inv = Total_Investment e
    | None => df = [] /\ sh = 0%float /\ inv = 0%float
    end.
Proof.
  intros [rows Hrows]%valid_input_has_close%has_close_closes.
  rewrite calculate_dca_trace, Hrows. do 3 eexists. split; [done|].
  rewrite totals_from_last.
  pose proof (closes_length _ _ Hrows) as Hlen.
  pose proof (log_from_length rc ii 0 0 0 rows) as Hlog.
  destruct (last _) as [e|] eqn:Hlast; simpl.
  - split; [|done]. intros ->. simpl in Hlen.
    destruct rows; [done|discriminate].
  - split; [|done]. apply last_None in Hlast. rewrite Hlast in Hlog.
    destruct df; [done|]. simpl in *. lia.
Qed.

Lemma totals_match_last_entry_witness :
  exists ledger sh inv,
    calculate_dca (basic_prices 0) 100 50 = Ok (ledger, sh, inv) /\
    match last ledger with
    | Some e => basic_prices 0 <> [] /\
                sh = Total_Shares e /\ inv = Total_Investment e
    | None => basic_prices 0 = [] /\ sh = 0%float /\ inv = 0%float
    end.
Proof.
  apply (totals_match_last_entry (basic_prices 0) 100 50). reflexivity.
Defined.

(** ** The percentage line of [main] *)

(** C9, as worded, fails: with nothing invested the block runs through
    without any exception, and its percentage is NaN. *)
Lemma zero_invested_percentage_is_nan :
  exists ledger sh,
    calculate_dca one_day 0 0 = Ok (ledger, sh, 0%float) /\
    results ledger 0 =
      Ok {| final_value := 0; net_gain_loss := 0; net_gain_loss_pct := nan |}.
Proof. do 2 eexists. split; reflexivity. Qed.

(** C9, amended: the percentage is computed without a guard.  For a non-empty
    log and an invested total equal to zero, the block returns its numbers,
    no exception is raised, and the percentage is the float quotient
    [net_gain_loss / total_invested * 100], which is then a NaN or an
    infinity. *)
Theorem percentage_unguarded dca_df ti :
  (0 < length dca_df)%nat ->
  (ti =? 0)%float = true ->
  exists s,
    results dca_df ti = Ok s /\
    net_gain_loss s = (final_value s - ti)%float /\
    net_gain_loss_pct s = (net_gain_loss s / ti * 100)%float /\
    is_finite (net_gain_loss_pct s) = false.
Proof.
  intros Hlen Hti. unfold results, column, iloc_last.
  destruct dca_df as [|e0 dca_df]; [simpl in Hlen; lia|].
  cbn [mbind result_bind].
  destruct (last (map Portfolio_Value (e0 :: dca_df))) as [fv|] eqn:Hlast.
  - eexists. split; [done|]. simpl. split_and!; [done..|].
    by apply percentage_of_nothing.
  - by apply last_None in Hlast.
Qed.

Lemma percentage_unguarded_witness :
  exists s,
    results [ mkEntry 0 10 0 0 0 ] 0 = Ok s /\
    net_gain_loss s = (final_value s - 0)%float /\
    net_gain_loss_pct s = (net_gain_loss s / 0 * 100)%float /\
    is_finite (net_gain_loss_pct s) = false.
Proof.
  apply (percentage_unguarded [ mkEntry 0 10 0 0 0 ] 0);
    [simpl; lia|reflexivity].
Defined.

(** ** What the call reads *)

(** C10, as worded, fails: a text column beside the same dates and the same
    closes 0 and 10 gives the frame the dtype object; the float64 frame
    returns a log, the other raises at the zero price. *)
Lemma text_column_changes_the_outcome :
  map fst (iterrows zero_then_ten) = map fst (iterrows noted_zero_then_ten) /\
  map close_value (iterrows zero_then_ten)
    = map close_value (iterrows noted_zero_then_ten) /\
  calculate_dca zero_then_ten 100 50 =
    Ok ([ mkEntry 0 0 infinity 150 nan; mkEntry 1 10 infinity 250 infinity ],
        infinity, 250%float) /\
  calculate_dca noted_zero_then_ten 100 50 = Raise ZeroDivisionError.
Proof. split_and!; reflexivity. Qed.

(** C10, amended: two frames with the same dates and the same "Close"
    values, row by row, give the same outcome for the same two amounts,
    whatever else the frames hold, provided that no close is equal to zero
    or that the closes also agree in their class ([numpy.float64] on a
    float64 frame, Python float on a frame of dtype object).  At a zero
    close the class, which the other columns decide, is read as well. *)
Theorem calculate_dca_reads_dates_and_closes (df1 df2 : DataFrame)
    (a b : number) :
  map fst (iterrows df1) = map fst (iterrows df2) ->
  map close_value (iterrows df1) = map close_value (iterrows df2) ->
  zero_priced df1 = false
  \/ map close_cell (iterrows df1) = map close_cell (iterrows df2) ->
  calculate_dca df1 a b = calculate_dca df2 a b.
Proof.
  intros Hd Hv Hc. unfold calculate_dca.
  by rewrite (for_enumerate_ext a b 0 _ _ initial_locals Hd Hv Hc).
Qed.

Lemma calculate_dca_reads_dates_and_closes_witness :
  calculate_dca lean_frame 100 50 = calculate_dca noted_frame 100 50.
Proof.
  apply (calculate_dca_reads_dates_and_closes lean_frame noted_frame 100 50);
    [reflexivity..|left; reflexivity].
Defined.

(** More float64 columns change nothing at any price. *)
Example more_float_columns :
  calculate_dca lean_frame 100 50 = calculate_dca wide_frame 100 50.
Proof. reflexivity. Qed.

(** * Further properties of the code *)

(** ** Rows without a close, and frames put end to end *)

Lemma closes_None (df : Float64Frame) :
  closes df = None <-> has_close df = false.
Proof.
  induction df as [|[d row] df IH]; [done|].
  rewrite closes_cons. unfold has_close in *. cbn [forallb].
  assert (close (d, row) = row !! "Close") as Hc by done.
  destruct (row !! "Close") as [p|]; simpl.
  - rewrite bool_decide_eq_true_2 by (by eexists). simpl.
    rewrite <- IH. by destruct (closes df).
  - rewrite bool_decide_eq_false_2; [done|]. rewrite Hc. by intros [? ?].
Qed.

Lemma closes_app (df1 df2 : Float64Frame) :
  closes (df1 ++ df2)%list =
  match closes df1, closes df2 with
  | Some rows1, Some rows2 => Some (rows1 ++ rows2)%list
  | _, _ => None
  end.
Proof.
  induction df1 as [|[d row] df1 IH]; cbn [app].
  - change (closes []) with (Some (@nil (Timestamp * float))).
    by destruct (closes df2).
  - rewrite !closes_cons, IH. destruct (row !! "Close"); [|done].
    by destruct (closes df1), (closes df2).
Qed.

Lemma log_from_app (rc ii : float) i sh inv
    (rows1 rows2 : list (Timestamp * float)) :
  log_from rc ii i sh inv (rows1 ++ rows2)%list =
  (log_from rc ii i sh inv rows1 ++
   log_from rc ii (i + length rows1)
     (totals_from rc ii i sh inv rows1).1 (totals_from rc ii i sh inv rows1).2
     rows2)%list.
Proof.
  revert i sh inv; induction rows1 as [|[d p] rows1 IH]; intros i sh inv.
  - simpl. by rewrite Nat.add_0_r.
  - cbn [app log_from totals_from length]. rewrite IH.
    by replace (S i + length rows1)%nat with (i + S (length rows1))%nat by lia.
Qed.

(** Each entry follows from the one before it. *)
Lemma log_from_step (rc ii : float) i sh inv rows k e e' :
  log_from rc ii i sh inv rows !! k = Some e ->
  log_from rc ii i sh inv rows !! S k = Some e' ->
  Total_Shares e' = (Total_Shares e + rc / Price e')%float /\
  Total_Investment e' = (Total_Investment e + rc)%float.
Proof.
  revert i sh inv k; induction rows as [|[d p] rows IH]; intros i sh inv k;
    [done|].
  destruct k as [|k].
  - destruct rows as [|[d' p'] rows]; [done|].
    cbn [log_from lookup list_lookup]. by intros [= <-] [= <-].
  - cbn [log_from]. rewrite !lookup_cons. apply IH.
Qed.

Lemma log_from_first (rc ii : float) sh inv rows e :
  log_from rc ii 0 sh inv rows !! 0%nat = Some e ->
  Total_Shares e = (sh + (rc + ii) / Price e)%float /\
  Total_Investment e = (inv + (rc + ii))%float.
Proof. destruct rows as [|[d p] rows]; [done|]. by intros [= <-]. Qed.

(** X1.  On a float64 frame and with float amounts the arithmetic of the loop
    never raises: [calculate_dca] fails exactly when some row has no "Close"
    cell, and it then raises [KeyError("Close")]. *)
Theorem missing_close_raises (df : Float64Frame) (rc ii : float) e :
  calculate_dca df rc ii = Raise e <->
  has_close df = false /\ e = KeyError "Close".
Proof.
  rewrite calculate_dca_trace, <- closes_None.
  destruct (closes df); split; try done.
  - by intros [? _].
  - by intros [= <-].
  - by intros [_ ->].
Qed.

(** X2.  The loop never looks ahead: when [calculate_dca] returns on a frame
    made of [df1] followed by [df2], it also returns on [df1] alone, and the
    log of [df1] is the first [len(df1)] entries of the longer log. *)
Theorem ledger_of_a_prefix (df1 df2 : Float64Frame) (rc ii : float)
    ledger sh inv :
  calculate_dca (df1 ++ df2)%list rc ii = Ok (ledger, sh, inv) ->
  exists sh1 inv1,
    calculate_dca df1 rc ii = Ok (take (length df1) ledger, sh1, inv1).
Proof.
  rewrite !calculate_dca_trace, closes_app.
  destruct (closes df1) as [rows1|] eqn:H1; [|done].
  destruct (closes df2) as [rows2|]; [|done].
  intros [= <- _ _]. do 2 eexists. do 2 f_equal.
  rewrite log_from_app, take_app_length'; [done|].
  by rewrite log_from_length, (closes_length _ _ H1).
Qed.

Lemma ledger_of_a_prefix_witness :
  exists sh1 inv1,
    calculate_dca one_day 100 50
      = Ok (take (length one_day)
              [ mkEntry 0 10 15 150 150; mkEntry 1 20 20 250 400 ], sh1, inv1).
Proof.
  apply (ledger_of_a_prefix one_day [ (1%Z, close_only 20) ] 100 50
           [ mkEntry 0 10 15 150 150; mkEntry 1 20 20 250 400 ] 20 250).
  reflexivity.
Defined.

(** ** The recurrence between successive entries *)

(** X3.  The log obeys the recurrence of the loop body.  The first entry holds
    [0.0 + (rc + ii) / price] shares and [0.0 + (rc + ii)] invested; every
    later entry adds [rc / price] at its own price to the shares of the entry
    before it, and [rc] to its invested total. *)
Theorem ledger_recurrence (df : Float64Frame) (rc ii : float) :
  has_close df = true ->
  exists ledger sh inv,
    calculate_dca df rc ii = Ok (ledger, sh, inv) /\
    (forall e, ledger !! 0%nat = Some e ->
       Total_Shares e = (0 + (rc + ii) / Price e)%float /\
       Total_Investment e = (0 + (rc + ii))%float) /\
    (forall i e e', ledger !! i = Some e -> ledger !! S i = Some e' ->
       Total_Shares e' = (Total_Shares e + rc / Price e')%float /\
       Total_Investment e' = (Total_Investment e + rc)%float).
Proof.
  intros [rows Hrows]%has_close_closes.
  rewrite calculate_dca_trace, Hrows. do 3 eexists. split; [done|]. split.
  - apply log_from_first.
  - intros i e e'. apply log_from_step.
Qed.

Lemma ledger_recurrence_witness :
  exists ledger sh inv,
    calculate_dca (basic_prices 0) 100 50 = Ok (ledger, sh, inv) /\
    (forall e, ledger !! 0%nat = Some e ->
       Total_Shares e = (0 + (100 + 50) / Price e)%float /\
       Total_Investment e = (0 + (100 + 50))%float) /\
    (forall i e e', ledger !! i = Some e -> ledger !! S i = Some e' ->
       Total_Shares e' = (Total_Shares e + 100 / Price e')%float /\
       Total_Investment e' = (Total_Investment e + 100)%float).
Proof. apply (ledger_recurrence (basic_prices 0) 100 50). reflexivity. Defined.

(** ** More float facts *)

Section MoreFloatFacts.
Import Binary64 Binary64Facts.

Lemma zero_div p : positive_finite p = true -> (0 / p)%float = 0%float.
Proof.
  unfold positive_finite. intros Hp. apply Prim2SF_inj.
  rewrite FloatAxioms.div_spec. change (Prim2SF 0) with (S754_zero false).
  by destruct (Prim2SF p) as [| | |[] mp ep].
Qed.

Lemma zero_mul p : positive_finite p = true -> (0 * p)%float = 0%float.
Proof.
  unfold positive_finite. intros Hp. apply Prim2SF_inj.
  rewrite FloatAxioms.mul_spec. change (Prim2SF 0) with (S754_zero false).
  by destruct (Prim2SF p) as [| | |[] mp ep].
Qed.

Lemma nonneg_leb x : nonneg x = true -> (0 <=? x)%float = true.
Proof.
  unfold nonneg. rewrite FloatAxioms.leb_spec.
  change (Prim2SF 0) with (S754_zero false).
  by destruct (Prim2SF x) as [|[]| |[]].
Qed.

(** An infinity or a NaN stays one under any addition. *)
Lemma add_not_finite x y : is_finite x = false -> is_finite (x + y) = false.
Proof.
  unfold is_finite, is_nan, is_infinity.
  rewrite !FloatAxioms.eqb_spec, !FloatAxioms.abs_spec, !FloatAxioms.add_spec.
  change (Prim2SF infinity) with (S754_infinity false).
  destruct (Prim2SF x) as [[]|[]| |[] mx ex] eqn:Hx; try done;
    try (by destruct (Prim2SF y) as [[]|[]| |[]]).
  - intros H. exfalso. revert H. unfold SFeqb, SFcompare.
    by rewrite Z.compare_refl, Pos.compare_cont_refl.
  - intros H. exfalso. revert H. unfold SFeqb, SFcompare.
    by rewrite Z.compare_refl, Pos.compare_cont_refl.
Qed.

End MoreFloatFacts.

(** ** Nothing paid in *)

Lemma contribution_at_zero i : contribution_at 0 0 i = 0%float.
Proof. unfold contribution_at. by destruct (Nat.eqb i 0). Qed.

Lemma log_from_zero i rows :
  Forall (fun r => positive_finite r.2 = true) rows ->
  Forall (fun e => Total_Shares e = 0%float /\ Total_Investment e = 0%float /\
                   Portfolio_Value e = 0%float)
    (log_from 0 0 i 0 0 rows) /\
  totals_from 0 0 i 0 0 rows = (0%float, 0%float).
Proof.
  revert i. induction rows as [|[d p] rows IH]; intros i Hrows;
    [by split; [constructor|]|].
  apply Forall_cons in Hrows as [Hp Hrows]. simpl in Hp.
  cbn [log_from totals_from]. rewrite contribution_at_zero, (zero_div p Hp).
  change (0 + 0)%float with 0%float. rewrite (zero_mul p Hp).
  destruct (IH (S i) Hrows) as [IH1 IH2]. split; [|done].
  by constructor.
Qed.

(** X4.  With both amounts zero and positive finite prices, nothing is ever
    bought: the call returns the totals [0.0] and [0.0], and every entry has
    zero shares, zero invested and zero value. *)
Theorem zero_amounts_give_zero_ledger (df : Float64Frame) :
  valid_input df 0 0 = true ->
  finite_prices df = true ->
  exists ledger,
    calculate_dca df 0 0 = Ok (ledger, 0%float, 0%float) /\
    forall i e, ledger !! i = Some e ->
      Total_Shares e = 0%float /\ Total_Investment e = 0%float /\
      Portfolio_Value e = 0%float.
Proof.
  intros Hvalid Hfin.
  destruct (has_close_closes df (valid_input_has_close _ _ _ Hvalid))
    as [rows Hrows].
  apply valid_input_inv in Hvalid as (_ & _ & Hok).
  pose proof (closes_positive_finite df rows Hrows Hok Hfin) as Hrows'.
  destruct (log_from_zero 0 rows Hrows') as [Hlog Htot].
  rewrite calculate_dca_trace, Hrows, Htot. eexists. split; [done|].
  intros i e He. by apply (Forall_lookup_1 _ _ _ _ Hlog He).
Qed.

Lemma zero_amounts_give_zero_ledger_witness :
  exists ledger,
    calculate_dca (basic_prices 0) 0 0 = Ok (ledger, 0%float, 0%float) /\
    forall i e, ledger !! i = Some e ->
      Total_Shares e = 0%float /\ Total_Investment e = 0%float /\
      Portfolio_Value e = 0%float.
Proof.
  apply (zero_amounts_give_zero_ledger (basic_prices 0)); reflexivity.
Defined.

(** ** Signs *)

Lemma log_from_nonneg (rc ii : float) i sh inv rows :
  nonneg rc = true -> nonneg ii = true ->
  nonneg sh = true -> nonneg inv = true ->
  Forall (fun r => positive_finite r.2 = true) rows ->
  Forall (fun e => nonneg (Total_Shares e) = true /\
                   nonneg (Total_Investment e) = true /\
                   nonneg (Portfolio_Value e) = true)
    (log_from rc ii i sh inv rows).
Proof.
  intros Hrc Hii. revert i sh inv.
  induction rows as [|[d p] rows IH]; intros i sh inv Hsh Hinv Hrows;
    [constructor|].
  apply Forall_cons in Hrows as [Hp Hrows]. simpl in Hp.
  pose proof (contribution_nonneg rc ii i Hrc Hii) as Hc.
  pose proof (add_nonneg _ _ Hsh (div_nonneg _ _ Hc Hp)) as Hsh'.
  pose proof (add_nonneg _ _ Hinv Hc) as Hinv'.
  cbn [log_from]. constructor; [|by apply IH].
  cbn [Total_Shares Total_Investment Portfolio_Value].
  split_and!; [done..|by apply mul_nonneg].
Qed.

(** X5.  With amounts [>= 0] and positive finite prices, no figure of the log
    is negative (or NaN): shares, invested total and portfolio value of every
    entry are [>= 0]. *)
Theorem totals_never_negative (df : Float64Frame) (rc ii : float) :
  valid_input df rc ii = true ->
  finite_prices df = true ->
  exists ledger sh inv,
    calculate_dca df rc ii = Ok (ledger, sh, inv) /\
    forall i e, ledger !! i = Some e ->
      (0 <=? Total_Shares e)%float = true /\
      (0 <=? Total_Investment e)%float = true /\
      (0 <=? Portfolio_Value e)%float = true.
Proof.
  intros Hvalid Hfin.
  destruct (has_close_closes df (valid_input_has_close _ _ _ Hvalid))
    as [rows Hrows].
  apply valid_input_inv in Hvalid as (Hrc & Hii & Hok).
  pose proof (closes_positive_finite df rows Hrows Hok Hfin) as Hrows'.
  rewrite calculate_dca_trace, Hrows. do 3 eexists. split; [done|].
  intros i e He.
  destruct (Forall_lookup_1 _ _ _ _
    (log_from_nonneg rc ii 0 0 0 rows Hrc Hii eq_refl eq_refl Hrows') He)
    as (H1 & H2 & H3).
  split_and!; by apply nonneg_leb.
Qed.

Lemma totals_never_negative_witness :
  exists ledger sh inv,
    calculate_dca (basic_prices 0) 100 50 = Ok (ledger, sh, inv) /\
    forall i e, ledger !! i = Some e ->
      (0 <=? Total_Shares e)%float = true /\
      (0 <=? Total_Investment e)%float = true /\
      (0 <=? Portfolio_Value e)%float = true.
Proof. apply (totals_never_negative (basic_prices 0) 100 50); reflexivity. Defined.

(** ** A zero price *)

Lemma log_from_not_finite_later (rc ii : float) i0 sh inv rows i j e e' :
  (i <= j)%nat ->
  log_from rc ii i0 sh inv rows !! i = Some e ->
  log_from rc ii i0 sh inv rows !! j = Some e' ->
  is_finite (Total_Shares e) = false ->
  is_finite (Total_Shares e') = false.
Proof.
  intros Hij Hi. revert e'. induction Hij as [|j Hij IH]; intros e' Hj Hnf.
  - by replace e' with e by congruence.
  - assert (is_Some (log_from rc ii i0 sh inv rows !! j)) as [e'' Hj'].
    { apply lookup_lt_is_Some. apply lookup_lt_Some in Hj. lia. }
    destruct (log_from_step _ _ _ _ _ _ _ _ _ Hj' Hj) as [-> _].
    apply add_not_finite. by apply IH.
Qed.

(** X6.  A zero price is never recovered from.  The division by it gives an
    infinity or a NaN, so from the entry with the zero price on, every
    "Total Shares" figure is an infinity or a NaN, whatever the amounts and
    the later prices are. *)
Theorem zero_price_spoils_later_entries (df : Float64Frame) (rc ii : float) :
  has_close df = true ->
  exists ledger sh inv,
    calculate_dca df rc ii = Ok (ledger, sh, inv) /\
    forall i j e e', (i <= j)%nat ->
      ledger !! i = Some e -> ledger !! j = Some e' ->
      (Price e =? 0)%float = true ->
      is_finite (Total_Shares e') = false.
Proof.
  intros [rows Hrows]%has_close_closes.
  rewrite calculate_dca_trace, Hrows. do 3 eexists. split; [done|].
  intros i j e e' Hij Hi Hj Hp.
  apply (log_from_not_finite_later _ _ _ _ _ _ _ _ _ _ Hij Hi Hj).
  destruct (log_from_shares_step _ _ _ _ _ _ _ _ Hi) as (before & c & ->).
  by apply add_div_zero_not_finite.
Qed.

Lemma zero_price_spoils_later_entries_witness :
  exists ledger sh inv,
    calculate_dca zero_then_ten 100 0 = Ok (ledger, sh, inv) /\
    forall i j e e', (i <= j)%nat ->
      ledger !! i = Some e -> ledger !! j = Some e' ->
      (Price e =? 0)%float = true ->
      is_finite (Total_Shares e') = false.
Proof.
  apply (zero_price_spoils_later_entries zero_then_ten 100 0). reflexivity.
Defined.

(** ** What the numbers depend on *)

Lemma has_close_map (df : Float64Frame) :
  has_close df = forallb (fun o => bool_decide (is_Some o)) (map close df).
Proof. unfold has_close. induction df as [|r df IH]; simpl; congruence. Qed.

Lemma log_from_numbers (rc ii : float) i sh inv rows1 rows2 :
  map snd rows1 = map snd rows2 ->
  map Price (log_from rc ii i sh inv rows1)
    = map Price (log_from rc ii i sh inv rows2) /\
  map Total_Shares (log_from rc ii i sh inv rows1)
    = map Total_Shares (log_from rc ii i sh inv rows2) /\
  map Total_Investment (log_from rc ii i sh inv rows1)
    = map Total_Investment (log_from rc ii i sh inv rows2) /\
  map Portfolio_Value (log_from rc ii i sh inv rows1)
    = map Portfolio_Value (log_from rc ii i sh inv rows2) /\
  totals_from rc ii i sh inv rows1 = totals_from rc ii i sh inv rows2.
Proof.
  revert i sh inv rows2.
  induction rows1 as [|[d1 p1] rows1 IH]; intros i sh inv [|[d2 p2] rows2];
    try done.
  cbn [map snd]. intros [= -> Hrows].
  cbn [log_from totals_from map Price Total_Shares Total_Investment
       Portfolio_Value].
  destruct (IH (S i) (sh + contribution_at rc ii i / p2)%float
              (inv + contribution_at rc ii i)%float rows2 Hrows)
    as (-> & -> & -> & -> & ->).
  done.
Qed.

Lemma closes_same_prices (df1 df2 : Float64Frame) rows1 :
  map close df1 = map close df2 -> closes df1 = Some rows1 ->
  exists rows2, closes df2 = Some rows2 /\ map snd rows1 = map snd rows2.
Proof.
  intros Hc H1.
  assert (has_close df2 = true) as [rows2 H2]%has_close_closes.
  { rewrite has_close_map, <- Hc, <- has_close_map.
    destruct (has_close df1) eqn:Hh; [done|].
    apply closes_None in Hh. congruence. }
  exists rows2. split; [done|].
  apply closes_prices in H1, H2. rewrite <- Hc, <- H1 in H2.
  clear -H2. revert rows2 H2.
  induction rows1 as [|[d1 p1] rows1 IH]; intros [|[d2 p2] rows2]; try done.
  simpl. intros [= -> H]. f_equal. by apply IH.
Qed.

(** X7.  The dates only label the entries.  Two frames with the same "Close"
    column, whatever their index, give the same totals and the same "Price",
    "Total Shares", "Total Investment" and "Portfolio Value" columns. *)
Theorem dates_do_not_enter_the_numbers (df1 df2 : Float64Frame)
    (rc ii : float) :
  map close df1 = map close df2 ->
  has_close df1 = true ->
  exists ledger1 ledger2 sh inv,
    calculate_dca df1 rc ii = Ok (ledger1, sh, inv) /\
    calculate_dca df2 rc ii = Ok (ledger2, sh, inv) /\
    map Price ledger1 = map Price ledger2 /\
    map Total_Shares ledger1 = map Total_Shares ledger2 /\
    map Total_Investment ledger1 = map Total_Investment ledger2 /\
    map Portfolio_Value ledger1 = map Portfolio_Value ledger2.
Proof.
  intros Hc [rows1 H1]%has_close_closes.
  destruct (closes_same_prices df1 df2 rows1 Hc H1) as (rows2 & H2 & Hrows).
  rewrite !calculate_dca_trace, H1, H2.
  destruct (log_from_numbers rc ii 0 0 0 rows1 rows2 Hrows)
    as (HP & HS & HI & HV & HT).
  rewrite HT. by do 4 eexists.
Qed.

Lemma dates_do_not_enter_the_numbers_witness :
  exists ledger1 ledger2 sh inv,
    calculate_dca (basic_prices 0) 100 50 = Ok (ledger1, sh, inv) /\
    calculate_dca basic_prices_weekly 100 50 = Ok (ledger2, sh, inv) /\
    map Price ledger1 = map Price ledger2 /\
    map Total_Shares ledger1 = map Total_Shares ledger2 /\
    map Total_Investment ledger1 = map Total_Investment ledger2 /\
    map Portfolio_Value ledger1 = map Portfolio_Value ledger2.
Proof.
  apply (dates_do_not_enter_the_numbers (basic_prices 0) basic_prices_weekly
           100 50); reflexivity.
Defined.

Lemma log_from_invested_ext (rc ii : float) i sh1 sh2 inv
    (rows1 rows2 : list (Timestamp * float)) :
  length rows1 = length rows2 ->
  map Total_Investment (log_from rc ii i sh1 inv rows1)
    = map Total_Investment (log_from rc ii i sh2 inv rows2) /\
  (totals_from rc ii i sh1 inv rows1).2 = (totals_from rc ii i sh2 inv rows2).2.
Proof.
  revert i sh1 sh2 inv rows2.
  induction rows1 as [|[d1 p1] rows1 IH];
    intros i sh1 sh2 inv [|[d2 p2] rows2]; try done.
  cbn [length]. intros [= Hlen].
  cbn [log_from totals_from map Total_Investment].
  destruct (IH (S i) (sh1 + contribution_at rc ii i / p1)%float
              (sh2 + contribution_at rc ii i / p2)%float
              (inv + contribution_at rc ii i)%float rows2 Hlen) as [-> ->].
  done.
Qed.

(** X8.  The invested total does not depend on the prices: two frames with
    the same number of rows give the same "Total Investment" column and the
    same returned total. *)
Theorem invested_ignores_prices (df1 df2 : Float64Frame) (rc ii : float) :
  length df1 = length df2 ->
  has_close df1 = true -> has_close df2 = true ->
  exists ledger1 sh1 ledger2 sh2 inv,
    calculate_dca df1 rc ii = Ok (ledger1, sh1, inv) /\
    calculate_dca df2 rc ii = Ok (ledger2, sh2, inv) /\
    map Total_Investment ledger1 = map Total_Investment ledger2.
Proof.
  intros Hlen [rows1 H1]%has_close_closes [rows2 H2]%has_close_closes.
  rewrite !calculate_dca_trace, H1, H2.
  destruct (log_from_invested_ext rc ii 0 0 0 0 rows1 rows2) as [HI HT].
  { by rewrite (closes_length _ _ H1), (closes_length _ _ H2). }
  rewrite HT. by do 5 eexists.
Qed.

Lemma invested_ignores_prices_witness :
  exists ledger1 sh1 ledger2 sh2 inv,
    calculate_dca (basic_prices 0) 100 50 = Ok (ledger1, sh1, inv) /\
    calculate_dca falling_prices 100 50 = Ok (ledger2, sh2, inv) /\
    map Total_Investment ledger1 = map Total_Investment ledger2.
Proof.
  apply (invested_ignores_prices (basic_prices 0) falling_prices 100 50);
    reflexivity.
Defined.

(** ** Whole amounts *)

(** X9.  For whole amounts [a] and [b] and [n >= 1] rows, the returned total
    invested is exactly [a * n + b], as long as this is below [2^53]: no
    rounding takes place in the running sum. *)
Theorem whole_amounts_total (df : Float64Frame) a b :
  has_close df = true ->
  (0 < length df)%nat ->
  (0 <= a)%Z -> (0 <= b)%Z ->
  (a * Z.of_nat (length df) + b < 2 ^ 53)%Z ->
  exists ledger sh,
    calculate_dca df (float_of_Z a) (float_of_Z b)
      = Ok (ledger, sh, float_of_Z (a * Z.of_nat (length df) + b)).
Proof.
  intros [rows Hrows]%has_close_closes Hlen Ha Hb Hab.
  rewrite calculate_dca_trace, Hrows. do 2 eexists. do 2 f_equal.
  rewrite totals_from_last, last_lookup.
  pose proof (closes_length _ _ Hrows) as Hl.
  pose proof (log_from_length (float_of_Z a) (float_of_Z b) 0 0 0 rows) as Hll.
  destruct (_ !! _) as [e|] eqn:He.
  - apply log_from_invested in He. cbn [snd]. rewrite He, Hll, Hl.
    destruct (length df) as [|n]; [lia|]. cbn [Nat.pred].
    replace (Z.of_nat (S n)) with (Z.of_nat n + 1)%Z in * by lia.
    by rewrite invested_after_whole.
  - apply lookup_ge_None in He. lia.
Qed.

Lemma whole_amounts_total_witness :
  exists ledger sh,
    calculate_dca (basic_prices 0) (float_of_Z 100) (float_of_Z 50)
      = Ok (ledger, sh,
            float_of_Z (100 * Z.of_nat (length (basic_prices 0)) + 50)).
Proof.
  apply (whole_amounts_total (basic_prices 0) 100 50);
    [reflexivity|simpl; lia|lia|lia|simpl; lia].
Defined.

(** ** The results block *)

Lemma last_map {A B} (f : A -> B) (l : list A) :
  last (map f l) = f <$> last l.
Proof.
  induction l as [|x [|y l] IH]; [done..|].
  change (map f (x :: y :: l)) with (f x :: map f (y :: l)).
  by rewrite !last_cons_cons.
Qed.

Lemma zip_with_map {A B C D} (f : B -> C -> D) (g : A -> B) (h : A -> C)
    (l : list A) :
  zip_with f (map g l) (map h l) = map (fun x => f (g x) (h x)) l.
Proof. induction l as [|x l IH]; simpl; congruence. Qed.

(** X10.  The results block of [main] fails in exactly one case: on the empty
    log, with [KeyError("Total Investment")] from line 108.  [iloc[-1]] never
    gets to raise [IndexError]. *)
Theorem results_raises_only_on_empty dca_df ti e :
  results dca_df ti = Raise e <->
  dca_df = [] /\ e = KeyError "Total Investment".
Proof.
  destruct dca_df as [|e0 l].
  - split; [by intros [= <-]|by intros [_ ->]].
  - split; [|by intros [? _]].
    unfold results, column, iloc_last. cbn [mbind result_bind].
    destruct (last (map Portfolio_Value (e0 :: l))) eqn:Hlast; [done|].
    by apply last_None in Hlast.
Qed.

Lemma results_last dca_df ti e :
  last dca_df = Some e ->
  results dca_df ti =
    Ok {| final_value := Portfolio_Value e;
          net_gain_loss := (Portfolio_Value e - ti)%float;
          net_gain_loss_pct := ((Portfolio_Value e - ti) / ti * 100)%float |}.
Proof.
  intros He. pose proof (last_map Portfolio_Value dca_df) as Hm.
  rewrite He in Hm. unfold results, column, iloc_last.
  destruct dca_df as [|e0 l]; [done|].
  cbn [mbind result_bind]. by rewrite Hm.
Qed.

Lemma log_from_last_price (rc ii : float) i sh inv rows e (df : Float64Frame) :
  closes df = Some rows ->
  last (log_from rc ii i sh inv rows) = Some e ->
  last (map close df) = Some (Some (Price e)).
Proof.
  intros Hrows He.
  rewrite <- (closes_prices _ _ Hrows).
  transitivity (last (map Some (map snd rows))); [by rewrite map_map|].
  rewrite <- (log_from_prices rc ii i sh inv), !last_map, He. done.
Qed.

(** X11.  On a frame with at least one row, the final portfolio value [main]
    shows is the returned share total times the last close, and the net
    gain or loss is that product minus the returned total invested. *)
Theorem final_value_is_shares_at_last_close (df : Float64Frame)
    (rc ii : float) :
  has_close df = true ->
  (0 < length df)%nat ->
  exists ledger sh inv p s,
    calculate_dca df rc ii = Ok (ledger, sh, inv) /\
    last (map close df) = Some (Some p) /\
    results ledger inv = Ok s /\
    final_value s = (sh * p)%float /\
    net_gain_loss s = (sh * p - inv)%float.
Proof.
  intros [rows Hrows]%has_close_closes Hlen.
  rewrite calculate_dca_trace, Hrows.
  pose proof (closes_length _ _ Hrows) as Hl.
  pose proof (log_from_length rc ii 0 0 0 rows) as Hll.
  destruct (last (log_from rc ii 0 0 0 rows)) as [e|] eqn:He;
    [|apply last_None in He; rewrite He in Hll; simpl in Hll; lia].
  pose proof (log_from_last_price _ _ _ _ _ _ _ _ Hrows He) as Hp.
  pose proof (last_Some_elem_of _ _ He) as HIn.
  pose proof (proj1 (Forall_forall _ _) (log_from_value rc ii 0 0 0 rows)
                _ HIn) as Hv.
  rewrite totals_from_last, He.
  exists (log_from rc ii 0 0 0 rows), (Total_Shares e), (Total_Investment e),
    (Price e).
  rewrite (results_last _ _ _ He).
  eexists. split_and!; [done..| |]; cbn [final_value net_gain_loss];
    by rewrite Hv.
Qed.

Lemma final_value_is_shares_at_last_close_witness :
  exists ledger sh inv p s,
    calculate_dca (basic_prices 0) 100 50 = Ok (ledger, sh, inv) /\
    last (map close (basic_prices 0)) = Some (Some p) /\
    results ledger inv = Ok s /\
    final_value s = (sh * p)%float /\
    net_gain_loss s = (sh * p - inv)%float.
Proof.
  apply (final_value_is_shares_at_last_close (basic_prices 0) 100 50);
    [reflexivity|simpl; lia].
Defined.

(** ** The profit and loss bars *)

Lemma profit_loss_bars dca_df :
  (0 < length dca_df)%nat ->
  profit_loss dca_df =
    Ok (map (fun e => (Portfolio_Value e - Total_Investment e)%float) dca_df).
Proof.
  intros Hlen. unfold profit_loss, column.
  destruct dca_df as [|e0 l]; [simpl in Hlen; lia|].
  cbn [mbind result_bind]. by rewrite zip_with_map.
Qed.

(** X12.  The "Profit/Loss" bars are, entry by entry, portfolio value minus
    invested total, and the last bar is the net gain or loss shown in the
    results. *)
Theorem last_bar_is_the_net_gain (df : Float64Frame) (rc ii : float) :
  has_close df = true ->
  (0 < length df)%nat ->
  exists ledger sh inv s bars,
    calculate_dca df rc ii = Ok (ledger, sh, inv) /\
    results ledger inv = Ok s /\
    profit_loss ledger = Ok bars /\
    bars = map (fun e => (Portfolio_Value e - Total_Investment e)%float) ledger /\
    last bars = Some (net_gain_loss s).
Proof.
  intros [rows Hrows]%has_close_closes Hlen.
  rewrite calculate_dca_trace, Hrows.
  pose proof (closes_length _ _ Hrows) as Hl.
  pose proof (log_from_length rc ii 0 0 0 rows) as Hll.
  destruct (last (log_from rc ii 0 0 0 rows)) as [e|] eqn:He;
    [|apply last_None in He; rewrite He in Hll; simpl in Hll; lia].
  rewrite totals_from_last, He.
  do 3 eexists. rewrite (results_last _ _ _ He), profit_loss_bars by lia.
  do 2 eexists. split_and!; [done..|].
  by rewrite last_map, He.
Qed.

Lemma last_bar_is_the_net_gain_witness :
  exists ledger sh inv s bars,
    calculate_dca (basic_prices 0) 100 50 = Ok (ledger, sh, inv) /\
    results ledger inv = Ok s /\
    profit_loss ledger = Ok bars /\
    bars = map (fun e => (Portfolio_Value e - Total_Investment e)%float) ledger /\
    last bars = Some (net_gain_loss s).
Proof.
  apply (last_bar_is_the_net_gain (basic_prices 0) 100 50);
    [reflexivity|simpl; lia].
Defined.

(** ** From the fetched frame to the results *)

Lemma filter_dates_in_range sd start_date end_date :
  Forall (fun r => (start_date <= r.1 <= end_date)%Z)
    (filter_dates sd start_date end_date).
Proof.
  apply Forall_forall. intros r Hr%list_elem_of_In.
  apply filter_In in Hr as [_ Hr]. unfold in_range in Hr.
  apply andb_true_iff in Hr as [H1%Z.leb_le H2%Z.leb_le]. by split.
Qed.

Lemma filter_dates_all sd start_date end_date :
  forallb (in_range start_date end_date) sd = true ->
  filter_dates sd start_date end_date = sd.
Proof.
  unfold filter_dates. induction sd as [|r sd IH]; [done|].
  cbn [forallb List.filter]. intros [-> H]%andb_true_iff. by rewrite IH.
Qed.

(** The frame of line 96 has its close in every row: the loop reads back the
    fetched (date, close) pairs. *)
Lemma closes_set_index_date (sd : StockData) :
  closes (set_index_date sd) = Some sd.
Proof.
  unfold set_index_date, close_frame.
  induction sd as [|[d p] sd IH]; [done|].
  cbn [map fst snd]. rewrite closes_cons, IH.
  unfold close_only. by rewrite lookup_singleton_eq.
Qed.

Lemma calculate_dca_set_index_date (sd : StockData) (rc ii : float) :
  calculate_dca (set_index_date sd) rc ii =
    Ok (log_from rc ii 0 0 0 sd,
        (totals_from rc ii 0 0 0 sd).1, (totals_from rc ii 0 0 0 sd).2).
Proof. by rewrite calculate_dca_trace, closes_set_index_date. Qed.

Section MainFacts.

Variable resample_mean : string -> Float64Frame -> Float64Frame.

Lemma adjust_frequency_daily frequency df :
  String.eqb frequency "Weekly" = false ->
  String.eqb frequency "Monthly" = false ->
  adjust_frequency resample_mean frequency df = df.
Proof. unfold adjust_frequency. by intros -> ->. Qed.

(** Past the two guards, [main] shows what lines 93-118 compute, or ends with
    the exception they raise. *)
Lemma main_past_the_guards start_date end_date sd frequency (rc ii : float) :
  (start_date < end_date)%Z -> (0 < length sd)%nat ->
  main resample_mean start_date end_date (Ok sd) frequency rc ii =
  match after_fetch resample_mean sd start_date end_date frequency rc ii with
  | Ok shown => Shown shown
  | Raise e => Uncaught e
  end.
Proof.
  intros Hlt Hlen. unfold main.
  destruct (Z.geb_spec start_date end_date) as [Hge|_]; [lia|].
  destruct sd; [simpl in Hlen; lia|done].
Qed.

(** X13.  On the daily path (the frequency is neither "Weekly" nor
    "Monthly"), when the start date is before the end date and at least one
    fetched row lies in the date range, [main] shows its results: the log has
    one entry for each fetched row in the range, in order, and every logged
    date lies between the start and the end date. *)
Theorem daily_ledger_stays_in_range sd start_date end_date frequency
    (rc ii : float) :
  String.eqb frequency "Weekly" = false ->
  String.eqb frequency "Monthly" = false ->
  (start_date < end_date)%Z ->
  (0 < length (filter_dates sd start_date end_date))%nat ->
  exists dca_df sh inv s,
    main resample_mean start_date end_date (Ok sd) frequency rc ii
      = Shown (dca_df, sh, inv, s) /\
    map Date dca_df = map fst (filter_dates sd start_date end_date) /\
    Forall (fun e => (start_date <= Date e <= end_date)%Z) dca_df.
Proof.
  intros Hw Hm Hlt Hlen.
  assert (0 < length sd)%nat as Hsd.
  { destruct sd; [simpl in Hlen; lia|simpl; lia]. }
  rewrite main_past_the_guards by done. unfold after_fetch.
  rewrite adjust_frequency_daily, calculate_dca_set_index_date by done.
  set (rows := filter_dates sd start_date end_date) in *.
  cbn [mbind result_bind].
  pose proof (log_from_length rc ii 0 0 0 rows) as Hll.
  destruct (last (log_from rc ii 0 0 0 rows)) as [e|] eqn:He;
    [|apply last_None in He; rewrite He in Hll; simpl in Hll; lia].
  rewrite (results_last _ _ _ He). cbn [mbind result_bind].
  do 4 eexists. split; [done|].
  pose proof (log_from_dates rc ii 0 0 0 rows) as Hd.
  split; [done|].
  pose proof (filter_dates_in_range sd start_date end_date) as Hr.
  apply Forall_forall. intros e' He'%list_elem_of_In.
  apply (in_map Date) in He'. rewrite Hd in He'.
  apply in_map_iff in He' as (r & <- & Hin%list_elem_of_In).
  exact (proj1 (Forall_forall _ _) Hr r Hin).
Qed.

(** X14.  Past the guards there is no check of what the date filter leaves.
    On the daily path, when the start date is before the end date and the
    fetched frame is not empty but none of its rows lies in the date range,
    [calculate_dca] returns the empty log and [main] ends at line 108 with an
    uncaught [KeyError("Total Investment")]. *)
Theorem daily_empty_range_raises sd start_date end_date frequency
    (rc ii : float) :
  String.eqb frequency "Weekly" = false ->
  String.eqb frequency "Monthly" = false ->
  (start_date < end_date)%Z ->
  (0 < length sd)%nat ->
  filter_dates sd start_date end_date = [] ->
  main resample_mean start_date end_date (Ok sd) frequency rc ii
    = Uncaught (KeyError "Total Investment").
Proof.
  intros Hw Hm Hlt Hsd He.
  rewrite main_past_the_guards by done. unfold after_fetch.
  by rewrite adjust_frequency_daily, He.
Qed.

(** X15.  The filter of line 93 is redundant when every fetched row already
    lies in the date range: on the daily path, with the start date before the
    end date and a fetched frame that is not empty, [main] then shows exactly
    what [calculate_dca] and the results block give on the fetched frame. *)
Theorem daily_filter_is_redundant sd start_date end_date frequency
    (rc ii : float) :
  String.eqb frequency "Weekly" = false ->
  String.eqb frequency "Monthly" = false ->
  (start_date < end_date)%Z ->
  forallb (in_range start_date end_date) sd = true ->
  (0 < length sd)%nat ->
  exists ledger sh inv s,
    calculate_dca (set_index_date sd) rc ii = Ok (ledger, sh, inv) /\
    results ledger inv = Ok s /\
    main resample_mean start_date end_date (Ok sd) frequency rc ii
      = Shown (ledger, sh, inv, s).
Proof.
  intros Hw Hm Hlt Hall Hlen.
  rewrite main_past_the_guards by done. unfold after_fetch.
  rewrite adjust_frequency_daily, filter_dates_all by done.
  rewrite calculate_dca_set_index_date. cbn [mbind result_bind].
  pose proof (log_from_length rc ii 0 0 0 sd) as Hll.
  destruct (last (log_from rc ii 0 0 0 sd)) as [e|] eqn:He;
    [|apply last_None in He; rewrite He in Hll; simpl in Hll; lia].
  rewrite (results_last _ _ _ He). cbn [mbind result_bind].
  do 4 eexists.
  split_and!; [reflexivity|apply (results_last _ _ _ He)|reflexivity].
Qed.


End MainFacts.

Lemma daily_ledger_stays_in_range_witness :
  exists dca_df sh inv s,
    main no_resample 1 2 (Ok (basic_history 0)) "Daily" 100 50
      = Shown (dca_df, sh, inv, s) /\
    map Date dca_df = map fst (filter_dates (basic_history 0) 1 2) /\
    Forall (fun e => (1 <= Date e <= 2)%Z) dca_df.
Proof.
  apply (daily_ledger_stays_in_range no_resample (basic_history 0) 1 2
           "Daily" 100 50); [reflexivity..|simpl; lia].
Defined.

Lemma daily_empty_range_raises_witness :
  main no_resample 10 20 (Ok (basic_history 0)) "Daily" 100 50
    = Uncaught (KeyError "Total Investment").
Proof.
  apply (daily_empty_range_raises no_resample (basic_history 0) 10 20 "Daily"
           100 50); [reflexivity..|simpl; lia|reflexivity].
Defined.

Lemma daily_filter_is_redundant_witness :
  exists ledger sh inv s,
    calculate_dca (set_index_date (basic_history 0)) 100 50
      = Ok (ledger, sh, inv) /\
    results ledger inv = Ok s /\
    main no_resample 0 2 (Ok (basic_history 0)) "Daily" 100 50
      = Shown (ledger, sh, inv, s).
Proof.
  apply (daily_filter_is_redundant no_resample (basic_history 0) 0 2 "Daily"
           100 50); [reflexivity..|simpl; lia].
Defined.

(** ** Int amounts *)

(** X18.  Whole amounts passed as ints, as the test passes them, run as the
    floats of the same value: for ints [n, m >= 0] with [n + m < 2 ^ 53] the
    call gives on every frame the outcome it gives for [float(n)] and
    [float(m)]. *)
Theorem whole_ints_run_as_floats (df : DataFrame) (n m : Z) :
  (0 <= n)%Z -> (0 <= m)%Z -> (n + m < 2 ^ 53)%Z ->
  calculate_dca df (py_int n) (py_int m)
    = calculate_dca df (float_of_Z n) (float_of_Z m).
Proof.
  intros Hn Hm Hnm. unfold calculate_dca.
  by rewrite for_enumerate_whole.
Qed.

Lemma whole_ints_run_as_floats_witness :
  calculate_dca (basic_prices 0) (py_int 100) (py_int 50)
    = calculate_dca (basic_prices 0) (float_of_Z 100) (float_of_Z 50).
Proof.
  apply (whole_ints_run_as_floats (basic_prices 0) 100 50); lia.
Defined.

(** The call of [test_calculate_dca_basic], with its int amounts. *)
Example test_calculate_dca_basic :
  calculate_dca (basic_prices 0) (py_int 100) (py_int 50) =
    Ok ([ mkEntry 0 10 15 150 150; mkEntry 1 20 20 250 400;
          mkEntry 2 40 22.5 350 900 ], 22.5%float, 350%float).
Proof. by vm_compute. Qed.

(** ** Frames of dtype object away from zero *)

Lemma prices_close_frame rows ps :
  mapM (fun r => pair r.1 <$> price r) rows = Some ps ->
  map fst rows = map fst (iterrows (close_frame ps)) /\
  map close_value rows = map close_value (iterrows (close_frame ps)).
Proof.
  revert ps; induction rows as [|[d row] rows IH]; intros ps.
  - by intros [= <-].
  - rewrite prices_cons.
    destruct (row !! "Close") as [v|] eqn:Hv; [|done].
    cbn [mbind option_bind].
    destruct (price_of v) as [p|] eqn:Hp; [|done].
    destruct (mapM _ rows) as [ps'|]; [|done].
    intros [= <-]. destruct (IH ps' eq_refl) as [Hd Hc].
    cbn [close_frame iterrows map fst snd] in *.
    rewrite Hd, Hc. split; [done|]. f_equal.
    unfold close_value, close_cell, close_only, Series in *. cbn [snd].
    rewrite Hv, (lookup_fmap np_float64 {[ "Close" := p ]} "Close"),
      lookup_singleton_eq.
    destruct v; by simplify_eq/=.
Qed.

(** X19.  Away from zero the dtype of the frame does not matter.  A frame of
    either kind whose rows all have a float close, none of them equal to
    zero, gives for all amounts the outcome of the float64 frame that holds
    its dates and its closes and nothing else: what is proved of float64
    frames at non-zero prices holds of the frames of dtype object too. *)
Theorem nonzero_closes_run_as_float64 (df : DataFrame) (a b : number) ps :
  prices df = Some ps ->
  zero_priced df = false ->
  calculate_dca df a b = calculate_dca (close_frame ps) a b.
Proof.
  intros Hps Hz. unfold calculate_dca.
  destruct (prices_close_frame _ _ Hps) as [Hd Hc].
  by rewrite (for_enumerate_ext a b 0 _ _ initial_locals Hd Hc (or_introl Hz)).
Qed.

Lemma nonzero_closes_run_as_float64_witness :
  calculate_dca noted_frame 100 50
    = calculate_dca (close_frame [ (0%Z, 10%float); (1%Z, 20%float) ]) 100 50.
Proof.
  apply (nonzero_closes_run_as_float64 noted_frame 100 50
           [ (0%Z, 10%float); (1%Z, 20%float) ]); reflexivity.
Defined.

(** ** The percentage when something was invested *)

Section NotNaN.
Import Binary64 Binary64Facts.
Local Open Scope Z_scope.

Lemma binary_round_aux_notnan s m e l :
  0 <= m -> SFnotnan (binary_round_aux prec emax s m e l) = true.
Proof.
  intros Hm. rewrite binary_round_aux_rounded.
  pose proof (rounded_nonneg m e l Hm) as H.
  destruct (rounded m e l).1; [done| |lia].
  by destruct (_ <=? _).
Qed.

Lemma binary_normalize_notnan m e sz :
  SFnotnan (binary_normalize prec emax m e sz) = true.
Proof.
  destruct m as [|p|p]; [done| |]; cbn [binary_normalize];
    unfold binary_round; destruct (shl_align _ _ _) as [mz ez];
    by apply binary_round_aux_notnan.
Qed.

Lemma SFsub_notnan x y :
  SFfinite x = true -> SFfinite y = true ->
  SFnotnan (SFsub prec emax x y) = true.
Proof.
  destruct x as [sx| | |sx mx ex], y as [sy| | |sy my ey]; try done.
  - by destruct sx, sy.
  - intros _ _. cbn [SFsub]. apply binary_normalize_notnan.
Qed.

Lemma SFdiv_notnan x sy my ey :
  SFnotnan x = true ->
  SFnotnan (SFdiv prec emax x (S754_finite sy my ey)) = true.
Proof.
  destruct x as [sx|sx| |sx mx ex]; try done.
  intros _. cbn [SFdiv]. unfold SFdiv_core_binary.
  set (m' := match _ with Z0 => _ | Z.pos _ => _ | Z.neg _ => _ end).
  assert (0 <= m') as Hm'.
  { unfold m'. destruct (_ - _ - _); [done| |done].
    rewrite Z.shiftl_mul_pow2 by done.
    apply Z.mul_nonneg_nonneg; [done|]. apply Z.pow_nonneg; lia. }
  pose proof (Z.div_pos m' (Z.pos my) Hm' eq_refl) as Hq.
  unfold Z.div in Hq.
  destruct (Z.div_eucl m' (Z.pos my)) as [q r].
  by apply binary_round_aux_notnan.
Qed.

Lemma SFmul_notnan x sy my ey :
  SFnotnan x = true ->
  SFnotnan (SFmul prec emax x (S754_finite sy my ey)) = true.
Proof.
  destruct x as [sx|sx| |sx mx ex]; try done.
  intros _. cbn [SFmul]. by apply binary_round_aux_notnan.
Qed.

Lemma SFeqb_refl_notnan x : SFnotnan x = true -> SFeqb x x = true.
Proof.
  destruct x as [sx|[]| |[] mx ex]; try done; intros _;
    unfold SFeqb, SFcompare;
    by rewrite Z.compare_refl, Pos.compare_cont_refl.
Qed.

End NotNaN.

Lemma is_finite_SFfinite x : is_finite x = true -> SFfinite (Prim2SF x) = true.
Proof. intros H%is_finite_spec. by destruct (Prim2SF x). Qed.

(** With a positive finite amount invested and a finite final value, the
    percentage is a number. *)
Lemma percentage_of_something fv ti :
  is_finite fv = true -> positive_finite ti = true ->
  is_nan ((fv - ti) / ti * 100) = false.
Proof.
  intros Hfv%is_finite_SFfinite Hti. unfold positive_finite in Hti.
  unfold is_nan.
  rewrite FloatAxioms.eqb_spec, SFeqb_refl_notnan; [done|].
  rewrite FloatAxioms.mul_spec, FloatAxioms.div_spec, FloatAxioms.sub_spec.
  change (Prim2SF 100) with (S754_finite false 7036874417766400 (-46)).
  apply SFmul_notnan.
  destruct (Prim2SF ti) as [| | |[] mt et] eqn:Ht; try done.
  apply SFdiv_notnan, SFsub_notnan; done.
Qed.

(** X16.  When the total invested is positive and finite and the last
    portfolio value is finite, the results block returns and the percentage
    it shows is not NaN. *)
Theorem percentage_is_a_number dca_df ti e :
  last dca_df = Some e ->
  is_finite (Portfolio_Value e) = true ->
  (0 <? ti)%float = true -> is_finite ti = true ->
  exists s,
    results dca_df ti = Ok s /\
    final_value s = Portfolio_Value e /\
    is_nan (net_gain_loss_pct s) = false.
Proof.
  intros He Hfv Hpos Hfin.
  rewrite (results_last _ _ _ He). eexists. split_and!; [done..|].
  cbn [net_gain_loss_pct].
  apply percentage_of_something; [done|by apply positive_price_spec].
Qed.

Lemma percentage_is_a_number_witness :
  exists s,
    results [ mkEntry 0 10 15 150 150 ] 150 = Ok s /\
    final_value s = Portfolio_Value (mkEntry 0 10 15 150 150) /\
    is_nan (net_gain_loss_pct s) = false.
Proof.
  apply (percentage_is_a_number [ mkEntry 0 10 15 150 150 ] 150
           (mkEntry 0 10 15 150 150)); reflexivity.
Defined.
